(** * WebReady: the derivative-generation pipeline of [server.js]

    A shallow embedding of the two request handlers of [server.js]
    ([POST /process] and [POST /process-batch]) together with the
    JavaScript built-ins they rely on, and the properties of the
    natural-language specification stated over that embedding.

    Conventions.
    - A JavaScript string is a Rocq [string]; each character stands for one
      code unit below 256 (Latin-1 text).
    - A JavaScript number that the handlers can see is an integer-valued
      double, [NaN] or an infinity: type [number].
    - [sharp] (the image codec) is an external collaborator: it is a
      parameter of the handlers, a record of two functions that either
      return or throw.
    - [process] and [process_batch] are the handlers over the fields of
      [req.body] once converted by [String(...)]; [handle_process] and
      [handle_process_batch] are the handlers over [req.body] as multer
      leaves it, where a value may be a text, an array or an object.
    - A response is the JSON body given to [res.json], or the attachment
      announced in the headers together with the entries handed to the
      archiver; the bytes the archiver writes are not modelled. *)

From Stdlib Require Import ZArith Ascii String DecimalString DecimalPos DecimalZ Lia.
From stdpp Require Import base option list sorting gmap strings.

Local Open Scope Z_scope.

(** ** JavaScript built-ins *)

Module JS.

(** *** Numbers *)

Inductive number : Type :=
| NaN
| Fin (z : Z)
| PosInf
| NegInf.

(** Round a mathematical integer to the nearest double (ties to even);
    magnitudes that round to [2^1024] or more become an infinity. *)
Definition to_double (v : Z) : number :=
  let a := Z.abs v in
  if a <? 2 ^ 53 then Fin v
  else
    let e := Z.log2 a - 52 in
    let q := a / 2 ^ e in
    let r := a mod 2 ^ e in
    let half := 2 ^ (e - 1) in
    let q' := if (half <? r) || ((r =? half) && Z.odd q) then q + 1 else q in
    let m := q' * 2 ^ e in
    if 2 ^ 1024 <=? m then (if v <? 0 then NegInf else PosInf)
    else Fin (Z.sgn v * m).

(** [Number.isFinite] *)
Definition isFinite (n : number) : bool :=
  match n with Fin _ => true | _ => false end.

(** [n > 0] *)
Definition gt0 (n : number) : bool :=
  match n with Fin z => 0 <? z | PosInf => true | _ => false end.

(** [Math.max(a, b)] and [Math.min(a, b)]: [NaN] is contagious. *)
Definition math_max (a b : number) : number :=
  match a, b with
  | NaN, _ | _, NaN => NaN
  | PosInf, _ | _, PosInf => PosInf
  | NegInf, x | x, NegInf => x
  | Fin x, Fin y => Fin (Z.max x y)
  end.

Definition math_min (a b : number) : number :=
  match a, b with
  | NaN, _ | _, NaN => NaN
  | NegInf, _ | _, NegInf => NegInf
  | PosInf, x | x, PosInf => x
  | Fin x, Fin y => Fin (Z.min x y)
  end.

(** *** Characters *)

Definition code (c : ascii) : Z := Z.of_N (N_of_ascii c).

(** White space and line terminators among the code units below 256:
    TAB, LF, VT, FF, CR, SPACE and NO-BREAK SPACE. *)
Definition is_space (c : ascii) : bool :=
  let n := code c in
  ((9 <=? n) && (n <=? 13)) || (n =? 32) || (n =? 160).

Definition is_digit (c : ascii) : bool :=
  let n := code c in (48 <=? n) && (n <=? 57).

Definition digit_value (c : ascii) : Z := code c - 48.

(** Lower-casing of one code unit: [A-Z], and the Latin-1 capitals
    [U+00C0 .. U+00DE] except the multiplication sign [U+00D7]. *)
Definition lower (c : ascii) : ascii :=
  let n := code c in
  if ((65 <=? n) && (n <=? 90))
     || ((192 <=? n) && (n <=? 222) && negb (n =? 215))
  then ascii_of_N (Z.to_N (n + 32))
  else c.

(** *** Strings *)

(** [s.toLowerCase()] *)
Fixpoint toLowerCase (s : string) : string :=
  match s with
  | EmptyString => EmptyString
  | String c s' => String (lower c) (toLowerCase s')
  end.

(** [s.trimStart()] *)
Fixpoint trimStart (s : string) : string :=
  match s with
  | EmptyString => EmptyString
  | String c s' => if is_space c then trimStart s' else s
  end.

(** [s.trimEnd()]: a character is dropped when it is white space and
    everything after it has been dropped. *)
Fixpoint trimEnd (s : string) : string :=
  match s with
  | EmptyString => EmptyString
  | String c s' =>
      match trimEnd s' with
      | EmptyString => if is_space c then EmptyString else String c EmptyString
      | t => String c t
      end
  end.

(** [s.trim()] *)
Definition trim (s : string) : string := trimEnd (trimStart s).

(** [s.split(sep)] for a one-character separator: never empty, the
    empty string splits into one empty piece. *)
Fixpoint split (sep : ascii) (s : string) : list string :=
  match s with
  | EmptyString => [EmptyString]
  | String c s' =>
      if Ascii.eqb c sep then EmptyString :: split sep s'
      else match split sep s' with
           | [] => [String c EmptyString]
           | p :: ps => String c p :: ps
           end
  end.

(** [l.join(sep)] *)
Definition join (sep : string) (l : list string) : string :=
  String.concat sep l.

(** The digits of the longest decimal prefix of [s], read left to right
    into the accumulator: [None] when [s] starts with no digit. *)
Fixpoint digits_prefix (acc : option Z) (s : string) : option Z :=
  match s with
  | EmptyString => acc
  | String c s' =>
      if is_digit c
      then digits_prefix (Some (10 * default 0 acc + digit_value c)) s'
      else acc
  end.

(** [parseInt(s, 10)]: leading white space is skipped, one sign is
    accepted, then the longest run of decimal digits is read; no digit
    gives [NaN]. The mathematical value is rounded to a double. *)
Definition parseInt (s : string) : number :=
  let t := trimStart s in
  let '(neg, body) :=
    match t with
    | String "-" t' => (true, t')
    | String "+" t' => (false, t')
    | _ => (false, t)
    end in
  match digits_prefix None body with
  | None => NaN
  | Some v => to_double (if neg then - v else v)
  end.

(** Decimal rendering of an integer: ["0"], ["480"], ["-5"]. *)
Definition decimal (z : Z) : string :=
  NilZero.string_of_int (Z.to_int z).

(** Whether the integer [c] rounds to the double [a]. *)
Definition rounds_to (a c : Z) : bool :=
  if to_double c is Fin a' then a' =? a else false.

(** The digits [Number::toString] prints for a double [a >= 2^53] with
    [d] decimal digits: those of the integer [s * 10^(n-k)] with the
    fewest significant digits [k] that rounds to [a], the closest one
    when two qualify and the even [s] when they are as close. The search
    returns that integer; [k] is tried upwards from its current value for
    [fuel] steps (17 digits identify a double), and an integer that is
    no double stands for itself. *)
Fixpoint shortest (fuel : nat) (a d k : Z) : Z :=
  match fuel with
  | O => a
  | S fuel' =>
      let p := 10 ^ (d - k) in
      let lo := a / p in
      let hi := lo + 1 in
      if rounds_to a (lo * p) && rounds_to a (hi * p)
      then (if a - lo * p <? hi * p - a then lo * p
            else if hi * p - a <? a - lo * p then hi * p
            else if Z.even lo then lo * p else hi * p)
      else if rounds_to a (lo * p) then lo * p
      else if rounds_to a (hi * p) then hi * p
      else shortest fuel' a d (k + 1)
  end.

(** A digit string without its trailing zeros. *)
Fixpoint drop_zeros (s : string) : string :=
  match s with
  | EmptyString => EmptyString
  | String c s' =>
      match drop_zeros s' with
      | EmptyString => if Ascii.eqb c "0" then EmptyString else String c EmptyString
      | t => String c t
      end
  end.

(** The significant digits of exponent notation: the first one, then the
    others after a dot when there are any. *)
Definition mantissa (digits : string) : string :=
  match digits with
  | String c EmptyString => String c EmptyString
  | String c rest => String c (String "." rest)
  | EmptyString => EmptyString
  end.

(** Exponent notation of the integer [v] of [n] digits: its significant
    digits, then [e+] and [n - 1]. *)
Definition exponent_form (v : Z) : string :=
  mantissa (drop_zeros (decimal v))
  +:+ "e+" +:+ decimal (Z.of_nat (String.length (decimal v)) - 1).

(** [Number::toString] of a non-negative integer: exact below [2^53],
    where every integer is a double and needs all its digits; from there
    on the shortest digits that read back as the same double, padded with
    zeros below [10^21] and in exponent notation above. *)
Definition render_nat (a : Z) : string :=
  let v := if a <? 2 ^ 53 then a
           else shortest 17 a (Z.of_nat (String.length (decimal a))) 1 in
  if v <? 10 ^ 21 then decimal v else exponent_form v.

(** [String(n)], also the rendering of [n] inside a template literal. *)
Definition toString (n : number) : string :=
  match n with
  | NaN => "NaN"
  | PosInf => "Infinity"
  | NegInf => "-Infinity"
  | Fin z => if z <? 0 then "-" +:+ render_nat (- z) else render_nat z
  end.

End JS.

(** ** Data model *)

Inductive Format : Type := webp | avif.

#[global] Instance Format_eq_dec : EqDecision Format.
Proof. solve_decision. Defined.

Definition format_name (f : Format) : string :=
  match f with webp => "webp" | avif => "avif" end.

Definition Buffer : Type := list Byte.byte.

(** An awaited promise either resolves to a value or rejects, which
    [await] turns into a thrown exception. *)
Inductive Try (A : Type) : Type :=
| Return (a : A)
| Throw (e : string).
Arguments Return {A} a.
Arguments Throw {A} e.

(** The part of [sharp(...).metadata()] the handlers read; [meta.width]
    may be [undefined]. *)
Record Metadata : Type := { meta_width : option Z }.

(** The codec capability. [toBuffer buf w f q] stands for
    [sharp(buf).resize({ width: w, withoutEnlargement: true }).clone()
      .<f>({ quality: q }).toBuffer()]. *)
Record Sharp : Type := {
  metadata : Buffer -> Try Metadata;
  toBuffer : Buffer -> Z -> Format -> JS.number -> Try Buffer
}.

(** One uploaded file as multer hands it over. *)
Record File : Type := {
  originalname : option string;
  buffer : Buffer
}.

(** An entry of the [outputs] array: [{ name, fmt, width, buf }]. *)
Record Output : Type := {
  name : string;
  fmt : Format;
  width : Z;
  buf : Buffer
}.

(** The calls made on the codec, in order. *)
Inductive Call : Type :=
| CallMetadata
| CallToBuffer (w : Z) (f : Format) (q : JS.number).

(** What the handler sends back: the body it gives to
    [res.status(..).json(..)], or the attachment it streams. Of the
    attachment, [filename] is the text the handler writes between the
    quotes of [filename=...] in the [Content-Disposition] header, and
    [entries] are the arguments of the calls of [zip.append], in order:
    the name the handler asks for and the content. How the archiver stores them is the library's affair and
    is not modelled: it normalises the name of an entry (back slashes
    become slashes, a drive prefix and leading [../] and [/] are
    dropped), so the name asked for is the stored name only when it is
    already in that form. *)
Inductive Content : Type :=
| Binary (b : Buffer)
| Text (s : string).

Inductive Response : Type :=
| Json (status : Z) (fields : list (string * string))
| Zip (filename : string) (entries : list (string * Content)).

(** ** Configuration resolution (lines 100-122 and 242-258) *)

Definition nl : string := String (ascii_of_nat 10) EmptyString.
Definition dq : string := String (ascii_of_nat 34) EmptyString.

Definition show (z : Z) : string := JS.toString (JS.Fin z).

(** Rendering of an array element that may be [undefined]. *)
Definition show_elem (o : option Z) : string :=
  match o with
  | Some z => show z
  | None => "undefined"
  end.

Definition defaultBreakpoints : list Z := [480; 768; 1200].

(** The predicate of [.filter(n => Number.isFinite(n) && n > 0)]; a
    number that passes is a positive integer, handed on as such. *)
Definition finite_positive (n : JS.number) : option Z :=
  if JS.isFinite n && JS.gt0 n
  then match n with JS.Fin z => Some z | _ => None end
  else None.

(** [.sort((a, b) => a - b)] *)
Definition sort_ascending (l : list Z) : list Z := merge_sort Z.le l.

Definition resolve_widths (body : gmap string string) : list Z :=
  let raw := default (JS.join "," (show <$> defaultBreakpoints)) (body !! "widths") in
  sort_ascending
    (omap finite_positive
       ((fun s => JS.parseInt (JS.trim s)) <$> JS.split "," raw)).

(** The predicate of [.filter(f => f === 'webp' || f === 'avif')]. *)
Definition known_format (s : string) : option Format :=
  if String.eqb s "webp" then Some webp
  else if String.eqb s "avif" then Some avif
  else None.

Definition resolve_formats (body : gmap string string) : list Format :=
  let raw := default "webp" (body !! "formats") in
  let formats :=
    omap known_format
      ((fun s => JS.toLowerCase (JS.trim s)) <$> JS.split "," raw) in
  match formats with
  | [] => [webp]
  | _ => formats
  end.

(** [Math.min(100, Math.max(1, parseInt(String(body[field] ?? dflt), 10)))] *)
Definition resolve_quality (field dflt : string) (body : gmap string string)
  : JS.number :=
  JS.math_min (JS.Fin 100)
    (JS.math_max (JS.Fin 1) (JS.parseInt (default dflt (body !! field)))).

Definition qWebp (body : gmap string string) : JS.number :=
  resolve_quality "quality_webp" "82" body.

Definition qAvif (body : gmap string string) : JS.number :=
  resolve_quality "quality_avif" "55" body.

Fixpoint no_dot (s : string) : bool :=
  match s with
  | EmptyString => true
  | String c s' => negb (Ascii.eqb c ".") && no_dot s'
  end.

(** [s.replace(/\.[^.]+$/, '')]: the match starts at a dot that is
    followed, up to the end of the string, by one or more characters none
    of which is a dot. *)
Fixpoint strip_extension (s : string) : string :=
  match s with
  | EmptyString => EmptyString
  | String c s' =>
      if Ascii.eqb c "." && negb (String.eqb s' "") && no_dot s'
      then EmptyString
      else String c (strip_extension s')
  end.

(** Line 118: [String(body.basename ?? file.originalname ?? 'image')
    .replace(/\.[^.]+$/, '')]. *)
Definition baseName_single (body : gmap string string) (file : File) : string :=
  strip_extension
    (match body !! "basename" with
     | Some b => b
     | None => default "image" (originalname file)
     end).

(** Line 265: [String(file.originalname ?? 'image').replace(/\.[^.]+$/, '')]. *)
Definition baseName_batch (file : File) : string :=
  strip_extension (default "image" (originalname file)).

(** [a || b] over array elements: [b] when [a] is [undefined] or the
    falsy number 0. *)
Definition or_else (a b : option Z) : option Z :=
  match a with
  | Some w => if w =? 0 then b else Some w
  | None => b
  end.

(** The generated [sizes] attribute over an array [ws]:
    [ws[0]], [ws[1] || ws[0]] and [ws[ws.length - 1]]. *)
Definition default_sizes (ws : list Z) : string :=
  "(max-width: " +:+ show_elem (ws !! 0%nat) +:+ "px) 100vw, (max-width: "
  +:+ show_elem (or_else (ws !! 1%nat) (ws !! 0%nat))
  +:+ "px) 50vw, " +:+ show_elem (last ws) +:+ "px".

(** Lines 119-122. *)
Definition sizesIn_single (body : gmap string string) (widths : list Z) : string :=
  default (default_sizes widths) (body !! "sizes").

(** ** The [try] block that fills [outputs] (lines 144-168 and 289-313) *)

(** What the block can touch: the [outputs] array it pushes to and the
    codec, whose calls are recorded. *)
Record Heap : Type := {
  outputs : list Output;
  calls : list Call
}.

(** A computation that may throw; the heap survives the exception. *)
Definition Exec (A : Type) : Type := Heap -> Try A * Heap.

Definition ret {A} (a : A) : Exec A := fun h => (Return a, h).

Definition bind {A B} (m : Exec A) (k : A -> Exec B) : Exec B :=
  fun h =>
    match m h with
    | (Return a, h') => k a h'
    | (Throw e, h') => (Throw e, h')
    end.

Notation "x <- m ;; k" := (bind m (fun x => k))
  (at level 100, m at next level, right associativity).
Notation "m ;; k" := (bind m (fun _ => k))
  (at level 100, right associativity).

(** [outputs.push(o)] *)
Definition push (o : Output) : Exec unit :=
  fun h => (Return tt, {| outputs := outputs h ++ [o]; calls := calls h |}).

(** [for (const x of xs) body(x)] *)
Fixpoint for_of {A} (xs : list A) (body : A -> Exec unit) : Exec unit :=
  match xs with
  | [] => ret tt
  | x :: xs' => body x ;; for_of xs' body
  end.

(** [formats.includes(f)] *)
Definition includes (f : Format) (formats : list Format) : bool :=
  bool_decide (f ∈ formats).

Definition fileName (baseName : string) (w : Z) (f : Format) : string :=
  baseName +:+ "-" +:+ show w +:+ "." +:+ format_name f.

Section Generation.

Variable sharp : Sharp.
Variable file : File.
Variable formats : list Format.
Variables qWebp qAvif : JS.number.
Variable baseName : string.

(** [await pipeline.clone().<f>({ quality: q }).toBuffer()] *)
Definition await_toBuffer (w : Z) (f : Format) (q : JS.number) : Exec Buffer :=
  fun h =>
    (toBuffer sharp (buffer file) w f q,
     {| outputs := outputs h; calls := calls h ++ [CallToBuffer w f q] |}).

(** One format of one width: encode, then push the entry. *)
Definition encode_push (w : Z) (f : Format) (q : JS.number) : Exec unit :=
  b <- await_toBuffer w f q ;;
  push {| name := fileName baseName w f; fmt := f; width := w; buf := b |}.

(** The body of the loop over [finalWidths]. *)
Definition encode_width (w : Z) : Exec unit :=
  (if includes webp formats then encode_push w webp qWebp else ret tt) ;;
  (if includes avif formats then encode_push w avif qAvif else ret tt).

(** The loop, started on an empty [outputs] array. *)
Definition generate (finalWidths : list Z) (log : list Call) : Try unit * Heap :=
  for_of finalWidths encode_width {| outputs := []; calls := log |}.

End Generation.

(** ** Markup (lines 170-193 and 317-340) *)

(** [srcsets = { webp: [], avif: [] }] *)
Record Srcsets : Type := {
  srcsets_webp : list string;
  srcsets_avif : list string
}.

Definition srcset_entry (out : Output) : string :=
  name out +:+ " " +:+ show (width out) +:+ "w".

(** [srcsets[out.fmt].push(`${out.name} ${out.width}w`)] *)
Definition srcsets_push (s : Srcsets) (out : Output) : Srcsets :=
  match fmt out with
  | webp => {| srcsets_webp := srcsets_webp s ++ [srcset_entry out];
               srcsets_avif := srcsets_avif s |}
  | avif => {| srcsets_webp := srcsets_webp s;
               srcsets_avif := srcsets_avif s ++ [srcset_entry out] |}
  end.

Definition collect_srcsets (outs : list Output) : Srcsets :=
  foldl srcsets_push {| srcsets_webp := []; srcsets_avif := [] |} outs.

Section Markup.

Variable formats : list Format.
Variable baseName : string.
Variable finalWidths : list Z.
Variable sizesIn : string.
Variable srcsets : Srcsets.

Definition baseSrc : string :=
  if includes webp formats
  then baseName +:+ "-" +:+ show_elem (finalWidths !! 0%nat) +:+ ".webp"
  else baseName +:+ "-" +:+ show_elem (finalWidths !! 0%nat) +:+ ".avif".

Definition imgSnippet : string :=
  "<img" +:+ nl +:+
  "  src=" +:+ dq +:+ baseSrc +:+ dq +:+ nl +:+
  "  srcset=" +:+ dq +:+
    JS.join ", " (if includes webp formats then srcsets_webp srcsets
                  else srcsets_avif srcsets) +:+ dq +:+ nl +:+
  "  sizes=" +:+ dq +:+ sizesIn +:+ dq +:+ nl +:+
  "  alt=" +:+ dq +:+ dq +:+ nl +:+
  "  loading=" +:+ dq +:+ "lazy" +:+ dq +:+ nl +:+
  "  decoding=" +:+ dq +:+ "async" +:+ dq +:+ nl +:+
  "/>".

Definition source_tag (mime : string) (entries : list string) : string :=
  match entries with
  | [] => ""
  | _ => "<source type=" +:+ dq +:+ mime +:+ dq +:+
         " srcset=" +:+ dq +:+ JS.join ", " entries +:+ dq +:+
         " sizes=" +:+ dq +:+ sizesIn +:+ dq +:+ ">"
  end.

Definition fallback_img : string :=
  "<img src=" +:+ dq +:+ baseSrc +:+ dq +:+ " alt=" +:+ dq +:+ dq +:+
  " loading=" +:+ dq +:+ "lazy" +:+ dq +:+
  " decoding=" +:+ dq +:+ "async" +:+ dq +:+ ">".

Definition pictureSnippet : string :=
  if (1 <? length formats)%nat
  then "<picture>" +:+ nl +:+
       "  " +:+ source_tag "image/avif" (srcsets_avif srcsets) +:+ nl +:+
       "  " +:+ source_tag "image/webp" (srcsets_webp srcsets) +:+ nl +:+
       "  " +:+ fallback_img +:+ nl +:+
       "</picture>"
  else imgSnippet.

End Markup.

(** ** [POST /process] (lines 89-222) *)

(** The request as the handler works on it from line 103 on: the
    uploaded file and the fields of [req.body] it reads, each already
    converted by [String(...)]; a field is absent when [body.<field>] is
    [undefined]. The conversion itself is [read_fields] below. *)
Record Request : Type := {
  req_file : option File;         (* [req.file] *)
  req_body : gmap string string   (* [String(body.<field>)], field by field *)
}.

(** [for (const out of outputs) zip.append(out.buf, { name: out.name })]:
    the entries handed to the archiver. *)
Definition archive_entries (outs : list Output) : list (string * Content) :=
  (fun out => (name out, Binary (buf out))) <$> outs.

Definition snippetDoc_single (finalWidths : list Z) (formats : list Format)
    (sizesIn img picture : string) : string :=
  "<!-- WebReady output -->" +:+ nl +:+
  "<!-- widths: " +:+ JS.join ", " (show <$> finalWidths) +:+
  " | formats: " +:+ JS.join ", " (format_name <$> formats) +:+ " -->" +:+ nl +:+
  "<!-- sizes: " +:+ sizesIn +:+ " -->" +:+ nl +:+
  nl +:+
  "<!-- Option A: <img> -->" +:+ nl +:+
  img +:+ nl +:+
  nl +:+
  "<!-- Option B: <picture> -->" +:+ nl +:+
  picture +:+ nl.

(** The error bodies of the handlers, under the names the specification
    gives them. *)
Definition MissingInput_single : Response :=
  Json 400 [("error", "Missing file: form field " +:+ dq +:+ "image" +:+ dq +:+ " is required.")].

Definition UnreadableMetadata : Response :=
  Json 400 [("error", "Could not read image metadata (unsupported/corrupt file?).")].

Definition UnknownWidth : Response :=
  Json 400 [("error", "Could not determine image width from metadata.")].

Definition AllWidthsExceedOriginal (origW : Z) : Response :=
  Json 400 [("error", "All requested widths exceed original width (" +:+ show origW +:+ "px).");
            ("hint", "Use widths <= " +:+ show origW +:+ ".")].

Definition EncodingFailure (detail : string) : Response :=
  Json 500 [("error", "Image processing failed in sharp."); ("detail", detail)].

Definition MissingInput_batch : Response :=
  Json 400 [("error", "No files provided. Use field name " +:+ dq +:+ "images" +:+ dq +:+ ".")].

Definition NoImagesProcessable : Response :=
  Json 400 [("error", "No images could be processed.")].

(** The answers of the outer [catch] blocks (lines 218-221 and 385-388),
    sent when the headers are not sent yet. *)
Definition UnexpectedError (detail : string) : Response :=
  Json 500 [("error", "Unexpected server error."); ("detail", detail)].

Definition BatchFailure (detail : string) : Response :=
  Json 500 [("error", "Batch processing failed."); ("detail", detail)].

(** Every character of [s] passes [P]. *)
Fixpoint all_chars (P : ascii -> bool) (s : string) : bool :=
  match s with
  | EmptyString => true
  | String c s' => P c && all_chars P s'
  end.

(** The characters Node accepts in the value of a header: TAB, 0x20 to
    0x7e and 0x80 to 0xff. (A code unit above 0xff, which Node refuses
    too, is outside the strings modelled here.) *)
Definition valid_header_char (c : ascii) : bool :=
  let n := nat_of_ascii c in
  (n =? 9)%nat || ((32 <=? n)%nat && (n <=? 126)%nat) || (128 <=? n)%nat.

(** [res.setHeader(name, value)] before the headers are sent: Node throws
    [ERR_INVALID_CHAR] on a value with a character it does not accept;
    the message is that of [String(err)]. *)
Definition setHeader (name value : string) : Try unit :=
  if all_chars valid_header_char value then Return tt
  else Throw ("TypeError [ERR_INVALID_CHAR]: Invalid character in header content ["
              +:+ dq +:+ name +:+ dq +:+ "]").

(** Lines 208-209 and 362-363: the two headers that announce the
    attachment. *)
Definition attachment_headers (filename : string) : Try unit :=
  match setHeader "Content-Type" "application/zip" with
  | Throw e => Throw e
  | Return _ =>
      setHeader "Content-Disposition"
        ("attachment; filename=" +:+ dq +:+ filename +:+ dq)
  end.

(** The fields of the body each handler reads, in the order it reads
    them. *)
Definition single_fields : list string :=
  ["widths"; "formats"; "quality_webp"; "quality_avif"; "basename"; "sizes"].

Definition batch_fields : list string :=
  ["widths"; "formats"; "quality_webp"; "quality_avif"].

(** A value of [req.body] as multer builds it: the text of a field, an
    array (a field name repeated or written with brackets, [a[]] or
    [a[2]], which may leave holes) or an object without prototype (a
    field name written [a[b]]). *)
#[warnings="-register-all"] Inductive Field : Type :=
| Str (s : string)
| Items (l : list (option Field))
| Dict (m : list (string * Field)).

(** [String(v)]: a text is itself, an array is its elements joined by
    commas, a hole counting for the empty text, and an object without
    prototype cannot be converted. *)
Fixpoint Field_toString (v : Field) : Try string :=
  match v with
  | Str s => Return s
  | Items l =>
      let fix elements (l : list (option Field)) : Try (list string) :=
        match l with
        | [] => Return []
        | x :: l' =>
            match
              match x with
              | None => Return EmptyString
              | Some v' => Field_toString v'
              end
            with
            | Throw e => Throw e
            | Return s =>
                match elements l' with
                | Throw e => Throw e
                | Return ss => Return (s :: ss)
                end
            end
        end in
      match elements l with
      | Throw e => Throw e
      | Return ss => Return (JS.join "," ss)
      end
  | Dict _ => Throw "TypeError: Cannot convert object to primitive value"
  end.

(** A value that [String] converts: neither an object nor an array that
    holds one, at any depth. *)
Fixpoint printable (v : Field) : bool :=
  match v with
  | Str _ => true
  | Items l =>
      forallb (fun x => match x with None => true | Some v' => printable v' end) l
  | Dict _ => false
  end.

(** [String(body.<field> ?? ...)] for the fields [names], in that order:
    the texts of the fields that are present, unless a conversion
    throws. *)
Fixpoint read_fields (names : list string) (raw : gmap string Field)
  : Try (gmap string string) :=
  match names with
  | [] => Return ∅
  | k :: rest =>
      match raw !! k with
      | None => read_fields rest raw
      | Some v =>
          match Field_toString v with
          | Throw e => Throw e
          | Return s =>
              match read_fields rest raw with
              | Throw e => Throw e
              | Return body => Return (<[k := s]> body)
              end
          end
      end
  end.

(** [widths.filter(w => w <= origW)] *)
Definition feasible (origW : Z) (widths : list Z) : list Z :=
  filter (fun w => w <= origW) widths.

Section Handlers.

Variable sharp : Sharp.

(** The handler returns its response and the codec calls it made. *)
Definition process (req : Request) : Response * list Call :=
  match req_file req with
  | None => (MissingInput_single, [])
  | Some file =>
      let body := req_body req in
      let widths := resolve_widths body in
      let formats := resolve_formats body in
      let baseName := baseName_single body file in
      let sizesIn := sizesIn_single body widths in
      match metadata sharp (buffer file) with
      | Throw _ => (UnreadableMetadata, [CallMetadata])
      | Return meta =>
          match meta_width meta with
          | None => (UnknownWidth, [CallMetadata])
          | Some origW =>
              if origW =? 0 then (UnknownWidth, [CallMetadata])
              else
                let finalWidths := feasible origW widths in
                match finalWidths with
                | [] => (AllWidthsExceedOriginal origW, [CallMetadata])
                | _ =>
                    match generate sharp file formats (qWebp body) (qAvif body)
                            baseName finalWidths [CallMetadata] with
                    | (Throw e, h) => (EncodingFailure e, calls h)
                    | (Return _, h) =>
                        let srcsets := collect_srcsets (outputs h) in
                        let img := imgSnippet formats baseName finalWidths sizesIn srcsets in
                        let picture := pictureSnippet formats baseName finalWidths sizesIn srcsets in
                        let snippetDoc :=
                          snippetDoc_single finalWidths formats sizesIn img picture in
                        match attachment_headers (baseName +:+ "-assets.zip") with
                        | Throw e => (UnexpectedError e, calls h)
                        | Return _ =>
                            (Zip (baseName +:+ "-assets.zip")
                               (archive_entries (outputs h)
                                ++ [("snippet.html", Text snippetDoc)]),
                             calls h)
                        end
                    end
                end
          end
      end
  end.

(** ** [POST /process-batch] (lines 233-389) *)

(** The batch request from line 242 on: the uploaded files and the
    fields of [req.body] the handler reads, converted by [String(...)]. *)
Record BatchRequest : Type := {
  req_files : list File;            (* [req.files], empty when missing *)
  batch_body : gmap string string   (* [String(body.<field>)], field by field *)
}.

Definition snippetDoc_batch (baseName : string) (finalWidths : list Z)
    (formats : list Format) (img picture : string) : string :=
  "<!-- " +:+ baseName +:+ " -->" +:+ nl +:+
  "<!-- widths: " +:+ JS.join ", " (show <$> finalWidths) +:+
  " | formats: " +:+ JS.join ", " (format_name <$> formats) +:+ " -->" +:+ nl +:+
  nl +:+
  img +:+ nl +:+
  nl +:+
  "<!-- Or use <picture> for multiple formats: -->" +:+ nl +:+
  picture +:+ nl +:+
  nl.

Section Batch.

Variable widths : list Z.
Variable formats : list Format.
Variables quality_webp quality_avif : JS.number.

(** One turn of the loop over [files], up to the two pushes that end
    it: [None] is a [continue], [Some (outputs, snippetDoc)] is what
    the turn appends to [allOutputs] and [allSnippets]. *)
Definition batch_iteration (file : File)
  : option (list Output * string) * list Call :=
  let baseName := baseName_batch file in
  match metadata sharp (buffer file) with
  | Throw _ => (None, [CallMetadata])
  | Return meta =>
      match meta_width meta with
      | None => (None, [CallMetadata])
      | Some origW =>
          if origW =? 0 then (None, [CallMetadata])
          else
            let finalWidths := feasible origW widths in
            match finalWidths with
            | [] => (None, [CallMetadata])
            | _ =>
                match generate sharp file formats quality_webp quality_avif
                        baseName finalWidths [CallMetadata] with
                | (Throw _, h) => (None, calls h)
                | (Return _, h) =>
                    let sizesIn := default_sizes finalWidths in
                    let srcsets := collect_srcsets (outputs h) in
                    let img := imgSnippet formats baseName finalWidths sizesIn srcsets in
                    let picture := pictureSnippet formats baseName finalWidths sizesIn srcsets in
                    (Some (outputs h,
                           snippetDoc_batch baseName finalWidths formats img picture),
                     calls h)
                end
            end
      end
  end.

Record BatchState : Type := {
  allOutputs : list Output;
  allSnippets : list string;
  batch_calls : list Call
}.

Definition batch_turn (st : BatchState) (file : File) : BatchState :=
  match batch_iteration file with
  | (None, cs) =>
      {| allOutputs := allOutputs st;
         allSnippets := allSnippets st;
         batch_calls := batch_calls st ++ cs |}
  | (Some (outs, doc), cs) =>
      {| allOutputs := allOutputs st ++ outs;
         allSnippets := allSnippets st ++ [doc];
         batch_calls := batch_calls st ++ cs |}
  end.

Definition batch_loop (files : list File) : BatchState :=
  foldl batch_turn
    {| allOutputs := []; allSnippets := []; batch_calls := [] |} files.

End Batch.

Definition combinedSnippets (files : list File) (widths : list Z)
    (formats : list Format) (allSnippets : list string) : string :=
  "<!-- WebReady Batch Output -->" +:+ nl +:+
  "<!-- " +:+ show (Z.of_nat (length files)) +:+ " images processed -->" +:+ nl +:+
  "<!-- widths: " +:+ JS.join ", " (show <$> widths) +:+
  " | formats: " +:+ JS.join ", " (format_name <$> formats) +:+ " -->" +:+ nl +:+
  nl +:+
  JS.join (nl +:+ "---" +:+ nl +:+ nl) allSnippets +:+ nl.

Definition process_batch (req : BatchRequest) : Response * list Call :=
  let files := req_files req in
  match files with
  | [] => (MissingInput_batch, [])
  | _ =>
      let body := batch_body req in
      let widths := resolve_widths body in
      let formats := resolve_formats body in
      let st := batch_loop widths formats (qWebp body) (qAvif body) files in
      match allOutputs st with
      | [] => (NoImagesProcessable, batch_calls st)
      | _ =>
          match attachment_headers "webready-batch.zip" with
          | Throw e => (BatchFailure e, batch_calls st)
          | Return _ =>
              (Zip "webready-batch.zip"
                 (archive_entries (allOutputs st)
                  ++ [("snippets.html",
                       Text (combinedSnippets files widths formats (allSnippets st)))]),
               batch_calls st)
          end
      end
  end.

(** ** The handlers on [req.body] as multer leaves it *)

Record RawRequest : Type := {
  raw_file : option File;          (* [req.file] *)
  raw_body : gmap string Field     (* [req.body], empty when missing *)
}.

Record RawBatchRequest : Type := {
  raw_files : list File;           (* [req.files], empty when missing *)
  raw_batch_body : gmap string Field
}.

(** [POST /process]: the file is looked at first; the fields are then
    converted in the order of lines 103-122, before the codec is asked
    anything, and a conversion that throws ends in the outer [catch]. *)
Definition handle_process (req : RawRequest) : Response * list Call :=
  match raw_file req with
  | None => (MissingInput_single, [])
  | Some file =>
      match read_fields single_fields (raw_body req) with
      | Throw e => (UnexpectedError e, [])
      | Return body => process {| req_file := Some file; req_body := body |}
      end
  end.

(** [POST /process-batch], likewise (lines 242-258). *)
Definition handle_process_batch (req : RawBatchRequest) : Response * list Call :=
  match raw_files req with
  | [] => (MissingInput_batch, [])
  | files =>
      match read_fields batch_fields (raw_batch_body req) with
      | Throw e => (BatchFailure e, [])
      | Return body => process_batch {| req_files := files; batch_body := body |}
      end
  end.

End Handlers.

(** ** Vocabulary of the statements *)

(** The quality an encoding of format [f] is asked for. *)
Definition quality_of (qWebp qAvif : JS.number) (f : Format) : JS.number :=
  match f with webp => qWebp | avif => qAvif end.

(** The formats one turn of the loop encodes, in the order it does. *)
Definition encoded_formats (formats : list Format) : list Format :=
  (if includes webp formats then [webp] else [])
  ++ (if includes avif formats then [avif] else []).

(** The (width, format) pairs the loop goes through, in order. *)
Definition pairs (formats : list Format) (ws : list Z) : list (Z * Format) :=
  ws ≫= (fun w => (fun f => (w, f)) <$> encoded_formats formats).

(** Whether the codec resolves. *)
Definition resolves {A} (t : Try A) : Prop :=
  match t with Return _ => True | Throw _ => False end.

Section Pairs.

Variable sharp : Sharp.
Variable file : File.
Variables qWebp qAvif : JS.number.
Variable baseName : string.

Definition encode_pair (p : Z * Format) : Exec unit :=
  encode_push sharp file baseName p.1 p.2 (quality_of qWebp qAvif p.2).

Definition pair_result (p : Z * Format) : Try Buffer :=
  toBuffer sharp (buffer file) p.1 p.2 (quality_of qWebp qAvif p.2).

Definition pair_output (p : Z * Format) : option Output :=
  match pair_result p with
  | Return b => Some {| name := fileName baseName p.1 p.2;
                        fmt := p.2; width := p.1; buf := b |}
  | Throw _ => None
  end.

Definition pair_call (p : Z * Format) : Call :=
  CallToBuffer p.1 p.2 (quality_of qWebp qAvif p.2).

End Pairs.

(** The number of outputs for one (width, format) pair. *)
Definition count_outputs (w : Z) (f : Format) (outs : list Output) : nat :=
  length (filter (fun o => width o = w ∧ fmt o = f) outs).

(** What an image adds to the batch archive. *)
Definition contribution (r : option (list Output * string)) : list Output :=
  match r with Some (outs, _) => outs | None => [] end.

Definition is_zip (r : Response) : bool :=
  match r with Zip _ _ => true | Json _ _ => false end.

(** The two clamps of a quality: [Math.min(100, Math.max(1, n))]. *)
Definition clamp_quality (n : JS.number) : JS.number :=
  JS.math_min (JS.Fin 100) (JS.math_max (JS.Fin 1) n).

(** The names of the entries handed to the archiver for the attachment
    a response carries, in order. *)
Definition archive_names (r : Response) : list string :=
  match r with
  | Zip _ entries => entries.*1
  | Json _ _ => []
  end.

(** The entries themselves. *)
Definition archive_of (r : Response) : list (string * Content) :=
  match r with
  | Zip _ entries => entries
  | Json _ _ => []
  end.

(** The [srcset] entries of format [f] over the widths [ws]. *)
Definition srcset_of (baseName : string) (f : Format) (ws : list Z) : list string :=
  (fun w => fileName baseName w f +:+ " " +:+ show w +:+ "w") <$> ws.

(** ** Sample codec and uploads *)

(** A codec that reports the width [origW] for every non-empty buffer and
    rejects exactly the (width, format) pairs listed in [bad]. *)
Definition sample_sharp (origW : Z) (bad : list (Z * Format)) : Sharp :=
  {| metadata := fun b =>
       match b with
       | [] => Throw "Error: Input buffer is empty"
       | _ => Return {| meta_width := Some origW |}
       end;
     toBuffer := fun b w f _ =>
       if bool_decide ((w, f) ∈ bad) then Throw "Error: encoder failed"
       else Return b |}.

Definition photo : File :=
  {| originalname := Some "photo.jpg"; buffer := [Byte.x01] |}.

Definition banner : File :=
  {| originalname := Some "banner.png"; buffer := [Byte.x02] |}.

Definition corrupt : File :=
  {| originalname := Some "corrupt.png"; buffer := [] |}.

(** ** The middleware around the handlers *)

(** *** Cross-origin headers (lines 23-45) *)




(** *** Error handling (lines 396-412) *)

(** An error reaching the last middleware: an instance of
    [multer.MulterError] with its [code] and [message], or anything
    else. *)
Inductive ServerError : Type :=
| MulterError (code message : string)
| OtherError.

Definition error_handler (err : ServerError) : Response :=
  match err with
  | MulterError code message =>
      if String.eqb code "LIMIT_FILE_SIZE"
      then Json 413 [("error", "File too large. Maximum size is 25MB per file.")]
      else if String.eqb code "LIMIT_FILE_COUNT"
      then Json 413 [("error", "Too many files. Maximum is 50 files per batch.")]
      else if String.eqb code "LIMIT_FIELD_VALUE"
      then Json 413 [("error", "Request data too large.")]
      else Json 400 [("error", "Upload error: " +:+ message)]
  | OtherError => Json 500 [("error", "Internal server error.")]
  end.

(** ** Further vocabulary *)

Definition not_comma (c : ascii) : bool := negb (Ascii.eqb c ",").

(** [s] is empty or starts with a character that is no digit: a decimal
    prefix ends where [s] starts. *)
Definition ends_number (s : string) : bool :=
  match s with
  | EmptyString => true
  | String c _ => negb (JS.is_digit c)
  end.

(** The value of a digit sequence read after the value [acc]. *)
Fixpoint uint_val (acc : Z) (d : Decimal.uint) : Z :=
  match d with
  | Decimal.Nil => acc
  | Decimal.D0 d' => uint_val (10 * acc) d'
  | Decimal.D1 d' => uint_val (10 * acc + 1) d'
  | Decimal.D2 d' => uint_val (10 * acc + 2) d'
  | Decimal.D3 d' => uint_val (10 * acc + 3) d'
  | Decimal.D4 d' => uint_val (10 * acc + 4) d'
  | Decimal.D5 d' => uint_val (10 * acc + 5) d'
  | Decimal.D6 d' => uint_val (10 * acc + 6) d'
  | Decimal.D7 d' => uint_val (10 * acc + 7) d'
  | Decimal.D8 d' => uint_val (10 * acc + 8) d'
  | Decimal.D9 d' => uint_val (10 * acc + 9) d'
  end.

(** The status code of a JSON answer. *)
Definition json_status (r : Response) : option Z :=
  match r with
  | Json status _ => Some status
  | Zip _ _ => None
  end.


Definition not_e (c : ascii) : bool := negb (Ascii.eqb c "e").

(** [n] zeros. *)
Fixpoint zeros (n : nat) : string :=
  match n with
  | O => EmptyString
  | S n' => String "0" (zeros n')
  end.

(** A string of white space only. *)
Definition blank (s : string) : bool := all_chars JS.is_space s.

(** A width as a client may write it: the decimal digits of an integer
    between two runs of white space. *)
Definition width_token (t : string * Z * string) : string :=
  t.1.1 +:+ show t.1.2 +:+ t.2.

(** A format as a client may write it: some spelling between two runs of
    white space. *)
Definition format_token (t : string * string * string) : string :=
  t.1.1 +:+ t.1.2 +:+ t.2.

(** The format the [<img>] snippet is written for: webp when requested. *)
Definition img_format (formats : list Format) : Format :=
  if includes webp formats then webp else avif.

(** * Properties *)

(** ** The loop over (width, format) pairs *)

Section GenerationFacts.

Context (sharp : Sharp) (file : File) (formats : list Format).
Context (qWebp qAvif : JS.number) (baseName : string).

Local Abbreviation turn := (encode_width sharp file formats qWebp qAvif baseName).
Local Abbreviation step := (encode_pair sharp file qWebp qAvif baseName).
Local Abbreviation result := (pair_result sharp file qWebp qAvif).
Local Abbreviation output := (pair_output sharp file qWebp qAvif baseName).
Local Abbreviation call := (pair_call qWebp qAvif).

Lemma bind_ret_l {A B} (a : A) (k : A -> Exec B) h : bind (ret a) k h = k a h.
Proof. reflexivity. Qed.

Lemma bind_ret_unit (m : Exec unit) h : bind m (fun _ => ret tt) h = m h.
Proof. unfold bind, ret. destruct (m h) as [[[]|e] h']; reflexivity. Qed.

Lemma bind_assoc {A B C} (m : Exec A) (k : A -> Exec B) (k' : B -> Exec C) h :
  bind (bind m k) k' h = bind m (fun a => bind (k a) k') h.
Proof. unfold bind. destruct (m h) as [[a|e] h']; reflexivity. Qed.

Lemma bind_ext {A B} (m : Exec A) (k k' : A -> Exec B) h :
  (forall a h', k a h' = k' a h') -> bind m k h = bind m k' h.
Proof. intros E. unfold bind. destruct (m h) as [[a|e] h']; auto. Qed.

Lemma for_of_app {A} (xs ys : list A) (body : A -> Exec unit) h :
  for_of (xs ++ ys) body h = bind (for_of xs body) (fun _ => for_of ys body) h.
Proof.
  revert h. induction xs as [|x xs IH]; intros h; simpl.
  - reflexivity.
  - rewrite bind_assoc. apply bind_ext. intros _ h'. apply IH.
Qed.

Lemma encode_width_pairs w h :
  turn w h = for_of ((fun f => (w, f)) <$> encoded_formats formats) step h.
Proof.
  unfold encode_width, encoded_formats, encode_pair.
  destruct (includes webp formats), (includes avif formats);
    cbn [fmap list_fmap app for_of fst snd quality_of].
  - apply bind_ext. intros _ h'. symmetry. apply bind_ret_unit.
  - rewrite !bind_ret_unit. reflexivity.
  - rewrite bind_ret_unit. reflexivity.
  - reflexivity.
Qed.

Lemma for_of_pairs ws h :
  for_of ws turn h = for_of (pairs formats ws) step h.
Proof.
  revert h. induction ws as [|w ws IH]; intros h.
  - reflexivity.
  - unfold pairs. rewrite bind_cons. fold (pairs formats ws).
    rewrite for_of_app. simpl.
    unfold bind at 1 2. rewrite encode_width_pairs.
    destruct (for_of _ step h) as [[[]|e] h']; auto.
Qed.

(** One pair: the call is recorded; the entry is pushed when the codec
    resolves and the exception leaves [outputs] as it was. *)
Lemma encode_pair_step p h :
  step p h =
    match result p with
    | Return b =>
        (Return tt,
         {| outputs := outputs h ++ from_option (fun o => [o]) [] (output p);
            calls := calls h ++ [call p] |})
    | Throw e =>
        (Throw e, {| outputs := outputs h; calls := calls h ++ [call p] |})
    end.
Proof.
  unfold encode_pair, encode_push, bind, await_toBuffer, push,
    output, result, call.
  destruct (toBuffer _ _ _ _ _); reflexivity.
Qed.

(** When the loop completes, every pair resolved, [outputs] holds one
    entry per pair in order, and every pair was sent to the codec. *)
Lemma for_of_pairs_return ps h0 u h :
  for_of ps step h0 = (Return u, h) ->
  Forall (fun p => resolves (result p)) ps
  ∧ outputs h = outputs h0 ++ omap output ps
  ∧ length (omap output ps) = length ps
  ∧ calls h = calls h0 ++ (call <$> ps).
Proof.
  revert h0. induction ps as [|p ps IH]; intros h0; simpl.
  - intros [= _ <-]. rewrite !app_nil_r. auto.
  - unfold bind. rewrite encode_pair_step.
    unfold pair_output.
    destruct (result p) as [b|e] eqn:E; [|discriminate].
    intros H. apply IH in H as (HF & Ho & Hl & Hc). simpl in *.
    split; [constructor; [rewrite E; exact I | exact HF]|].
    split; [rewrite Ho, <- app_assoc; reflexivity|].
    split; [f_equal; exact Hl|].
    rewrite Hc, <- app_assoc. reflexivity.
Qed.

(** The loop completes as soon as every pair resolves. *)
Lemma for_of_pairs_resolves ps h0 :
  Forall (fun p => resolves (result p)) ps ->
  exists h, for_of ps step h0 = (Return tt, h).
Proof.
  intros HF. revert h0. induction HF as [|p ps Hp _ IH]; intros h0; simpl.
  - eexists. reflexivity.
  - unfold bind. rewrite encode_pair_step.
    destruct (result p); [|destruct Hp]. apply IH.
Qed.

(** One rejected pair makes the whole loop throw. *)
Lemma for_of_pairs_throw ps h0 :
  Exists (fun p => ¬ resolves (result p)) ps ->
  exists e h, for_of ps step h0 = (Throw e, h).
Proof.
  intros HE.
  destruct (for_of ps step h0) as [[u|e] h] eqn:E; [|eauto].
  apply for_of_pairs_return in E as (HF & _).
  apply Exists_exists in HE as (p & Hin & Hp).
  rewrite Forall_forall in HF. destruct Hp. auto.
Qed.

Lemma elem_of_encoded_formats f : f ∈ encoded_formats formats ↔ f ∈ formats.
Proof.
  unfold encoded_formats, includes.
  rewrite elem_of_app.
  destruct (bool_decide_reflect (webp ∈ formats)),
    (bool_decide_reflect (avif ∈ formats)), f;
    rewrite ?list_elem_of_singleton, ?elem_of_nil; intuition congruence.
Qed.

Lemma elem_of_pairs ws w f : (w, f) ∈ pairs formats ws ↔ w ∈ ws ∧ f ∈ formats.
Proof.
  unfold pairs. rewrite list_elem_of_bind. split.
  - intros (w' & Hin & Hw). apply list_elem_of_fmap in Hin as (f' & [= -> ->] & Hf).
    split; [done|]. by apply elem_of_encoded_formats.
  - intros [Hw Hf]. exists w. split; [|done].
    apply list_elem_of_fmap. exists f. split; [done|]. by apply elem_of_encoded_formats.
Qed.

End GenerationFacts.

(** ** Strings and numbers *)

Lemma append_cons (c : ascii) (a b : string) :
  String c a +:+ b = String c (a +:+ b).
Proof. reflexivity. Qed.

Lemma append_length (a b : string) :
  String.length (a +:+ b) = (String.length a + String.length b)%nat.
Proof.
  induction a as [|c a IH]; [reflexivity|].
  rewrite append_cons. simpl. by rewrite IH.
Qed.

Lemma append_assoc (a b c : string) : (a +:+ b) +:+ c = a +:+ (b +:+ c).
Proof.
  induction a as [|x a IH]; [reflexivity|].
  rewrite !append_cons. by rewrite IH.
Qed.

Lemma append_inv_head (s a b : string) : s +:+ a = s +:+ b -> a = b.
Proof.
  induction s as [|c s IH]; [auto|].
  rewrite !append_cons. intros [= H]. auto.
Qed.

(** Two concatenations with tails of equal length agree part by part. *)
Lemma append_inv_tail (a b t t' : string) :
  String.length t = String.length t' ->
  a +:+ t = b +:+ t' -> a = b ∧ t = t'.
Proof.
  revert b. induction a as [|c a IH]; intros [|d b] Hlen;
    rewrite ?append_cons; change (EmptyString +:+ ?x) with x.
  - auto.
  - intros ->. simpl in Hlen. rewrite append_length in Hlen. lia.
  - intros <-. simpl in Hlen. rewrite append_length in Hlen. lia.
  - intros [= -> H]. destruct (IH b Hlen H) as [-> ->]. auto.
Qed.

Lemma decimal_inj (z z' : Z) : JS.decimal z = JS.decimal z' -> z = z'.
Proof.
  unfold JS.decimal. intros H.
  assert (Hn : forall x, NilZero.int_of_string (NilZero.string_of_int (Z.to_int x))
                         = Some (Z.to_int x)).
  { intros x. apply NilZero.isi; destruct x; simpl; try discriminate.
    - intros [= E]. revert E. apply DecimalPos.Unsigned.to_uint_nonnil.
    - intros [= E]. revert E. apply DecimalPos.Unsigned.to_uint_nonnil. }
  apply (f_equal NilZero.int_of_string) in H. rewrite !Hn in H.
  injection H as H. by apply DecimalZ.to_int_inj.
Qed.

(** Below [2^53] a non-negative integer is rendered with all its digits. *)
Lemma show_decimal (z : Z) : 0 <= z < 2 ^ 53 -> show z = JS.decimal z.
Proof.
  intros [H0 H1]. unfold show, JS.toString, JS.render_nat.
  destruct (Z.ltb_spec z 0); [lia|].
  destruct (Z.ltb_spec z (2 ^ 53)); [|lia].
  destruct (Z.ltb_spec z (10 ^ 21)); [reflexivity | lia].
Qed.

(** ** Reading numbers back *)

Lemma of_uint_acc_val (d : Decimal.uint) (p : positive) :
  Z.pos (Pos.of_uint_acc d p) = uint_val (Z.pos p) d.
Proof.
  revert p. induction d; intros p; simpl; [reflexivity|..];
    rewrite IHd; f_equal; lia.
Qed.

Lemma of_uint_val (d : Decimal.uint) : Z.of_N (Pos.of_uint d) = uint_val 0 d.
Proof.
  induction d; simpl; [reflexivity | exact IHd |..];
    rewrite of_uint_acc_val; reflexivity.
Qed.

Lemma uint_val_to_uint (p : positive) : uint_val 0 (Pos.to_uint p) = Z.pos p.
Proof. by rewrite <- of_uint_val, DecimalPos.Unsigned.of_to. Qed.

Lemma digits_prefix_end (acc : option Z) (t : string) :
  ends_number t = true -> JS.digits_prefix acc t = acc.
Proof.
  destruct t as [|c t]; [reflexivity|]. simpl. intros H.
  apply negb_true_iff in H. by rewrite H.
Qed.

Lemma digits_prefix_uint (a : Z) (d : Decimal.uint) (t : string) :
  ends_number t = true ->
  JS.digits_prefix (Some a) (NilEmpty.string_of_uint d +:+ t) = Some (uint_val a d).
Proof.
  intros Ht. revert a.
  induction d; intros a; cbn [NilEmpty.string_of_uint uint_val];
    [by apply digits_prefix_end|..];
    rewrite append_cons; cbn [JS.digits_prefix];
    (replace (JS.is_digit _) with true by reflexivity);
    rewrite IHd; do 2 f_equal; unfold JS.digit_value, JS.code; simpl; lia.
Qed.

Lemma decimal_pos (p : positive) :
  JS.decimal (Z.pos p) = NilEmpty.string_of_uint (Pos.to_uint p).
Proof.
  unfold JS.decimal. simpl.
  pose proof (DecimalPos.Unsigned.to_uint_nonnil p) as Hn.
  unfold NilZero.string_of_uint. by destruct (Pos.to_uint p).
Qed.

Lemma decimal_neg (p : positive) :
  JS.decimal (Z.neg p) = String "-" (JS.decimal (Z.pos p)).
Proof. reflexivity. Qed.

Lemma digits_prefix_decimal (p : positive) (t : string) :
  ends_number t = true ->
  JS.digits_prefix None (JS.decimal (Z.pos p) +:+ t) = Some (Z.pos p).
Proof.
  intros Ht. rewrite decimal_pos, <- uint_val_to_uint.
  pose proof (DecimalPos.Unsigned.to_uint_nonnil p) as Hn.
  destruct (Pos.to_uint p) as [|d|d|d|d|d|d|d|d|d|d]; [done|..];
    cbn [NilEmpty.string_of_uint uint_val]; rewrite append_cons;
    cbn [JS.digits_prefix];
    (replace (JS.is_digit _) with true by reflexivity);
    rewrite digits_prefix_uint by done; reflexivity.
Qed.

(** The first character of a positive decimal is a digit. *)
Lemma decimal_pos_head (p : positive) :
  exists c s, JS.decimal (Z.pos p) = String c s ∧ JS.is_digit c = true.
Proof.
  rewrite decimal_pos.
  pose proof (DecimalPos.Unsigned.to_uint_nonnil p) as Hn.
  destruct (Pos.to_uint p); [done|..]; simpl; eauto.
Qed.

Lemma digit_not_space (c : ascii) : JS.is_digit c = true -> JS.is_space c = false.
Proof. unfold JS.is_digit, JS.is_space. lia. Qed.


Lemma parseInt_unsigned (c : ascii) (s : string) :
  JS.is_digit c = true ->
  JS.parseInt (String c s)
  = match JS.digits_prefix None (String c s) with
    | None => JS.NaN
    | Some v => JS.to_double v
    end.
Proof.
  destruct c as [b0 b1 b2 b3 b4 b5 b6 b7].
  destruct b0, b1, b2, b3, b4, b5, b6, b7; intros H;
    first [discriminate H | reflexivity].
Qed.

Lemma parseInt_minus (s : string) :
  JS.parseInt (String "-" s)
  = match JS.digits_prefix None s with
    | None => JS.NaN
    | Some v => JS.to_double (- v)
    end.
Proof. reflexivity. Qed.

Lemma to_double_exact (z : Z) : Z.abs z < 2 ^ 53 -> JS.to_double z = JS.Fin z.
Proof.
  intros H. unfold JS.to_double.
  destruct (Z.ltb_spec (Z.abs z) (2 ^ 53)); [reflexivity | lia].
Qed.

(** Reading back a decimal rendering, whatever follows it. *)
Lemma parseInt_decimal (z : Z) (t : string) :
  ends_number t = true ->
  JS.parseInt (JS.decimal z +:+ t) = JS.to_double z.
Proof.
  intros Ht. destruct z as [|p|p].
  - change (JS.decimal 0 +:+ t) with (String "0" t).
    rewrite parseInt_unsigned by reflexivity. cbn [JS.digits_prefix].
    replace (JS.is_digit "0") with true by reflexivity.
    by rewrite digits_prefix_end.
  - destruct (decimal_pos_head p) as (c & s & E & Hc).
    pose proof (digits_prefix_decimal p t Ht) as Hd.
    rewrite E, append_cons in *. rewrite parseInt_unsigned by done.
    by rewrite Hd.
  - rewrite decimal_neg, append_cons, parseInt_minus.
    by rewrite digits_prefix_decimal.
Qed.

(** ** Trimming and splitting *)

Lemma append_nil_r (s : string) : s +:+ "" = s.
Proof. induction s as [|c s IH]; [reflexivity|]. by rewrite append_cons, IH. Qed.

Lemma all_chars_app (P : ascii -> bool) (a b : string) :
  all_chars P (a +:+ b) = all_chars P a && all_chars P b.
Proof.
  induction a as [|c a IH]; [reflexivity|].
  rewrite append_cons. cbn [all_chars]. by rewrite IH, andb_assoc.
Qed.

Lemma all_chars_impl (P Q : ascii -> bool) (s : string) :
  (forall c, P c = true -> Q c = true) ->
  all_chars P s = true -> all_chars Q s = true.
Proof.
  intros HPQ. induction s as [|c s IH]; [done|]. cbn [all_chars].
  intros [Hc Hs]%andb_prop. rewrite (HPQ _ Hc). auto.
Qed.

Lemma trimStart_spaces (a s : string) :
  all_chars JS.is_space a = true -> JS.trimStart (a +:+ s) = JS.trimStart s.
Proof.
  induction a as [|c a IH]; [done|]. cbn [all_chars]. intros [Hc Ha]%andb_prop.
  rewrite append_cons. cbn [JS.trimStart]. rewrite Hc. auto.
Qed.

Lemma trimStart_all_spaces (a : string) :
  all_chars JS.is_space a = true -> JS.trimStart a = "".
Proof.
  intros H. rewrite <- (append_nil_r a). by rewrite trimStart_spaces.
Qed.

Lemma trimEnd_all_spaces (b : string) :
  all_chars JS.is_space b = true -> JS.trimEnd b = "".
Proof.
  induction b as [|c b IH]; [done|]. cbn [all_chars JS.trimEnd].
  intros [Hc Hb]%andb_prop. by rewrite IH, Hc.
Qed.

Lemma trimEnd_spaces (s b : string) :
  all_chars (fun c => negb (JS.is_space c)) s = true ->
  all_chars JS.is_space b = true ->
  JS.trimEnd (s +:+ b) = s.
Proof.
  intros Hs Hb. induction s as [|c s IH].
  - by apply trimEnd_all_spaces.
  - cbn [all_chars] in Hs. apply andb_prop in Hs as [Hc Hs'].
    rewrite append_cons. cbn [JS.trimEnd]. rewrite (IH Hs').
    apply negb_true_iff in Hc. rewrite Hc. by destruct s.
Qed.

(** White space around a token without white space is trimmed away. *)
Lemma trim_padded (a s b : string) :
  all_chars JS.is_space a = true ->
  all_chars (fun c => negb (JS.is_space c)) s = true ->
  all_chars JS.is_space b = true ->
  JS.trim (a +:+ s +:+ b) = s.
Proof.
  intros Ha Hs Hb. unfold JS.trim. rewrite trimStart_spaces by done.
  destruct s as [|c s].
  - change ("" +:+ b) with b. by rewrite trimStart_all_spaces.
  - rewrite append_cons. cbn [all_chars] in Hs. pose proof Hs as [Hc _]%andb_prop.
    apply negb_true_iff in Hc. cbn [JS.trimStart]. rewrite Hc.
    rewrite <- append_cons. by apply trimEnd_spaces.
Qed.

Lemma split_no_sep (sep : ascii) (s : string) :
  all_chars (fun c => negb (Ascii.eqb c sep)) s = true ->
  JS.split sep s = [s].
Proof.
  induction s as [|c s IH]; [done|]. cbn [all_chars JS.split].
  intros [Hc Hs]%andb_prop. apply negb_true_iff in Hc. by rewrite Hc, IH.
Qed.

Lemma split_app_sep (sep : ascii) (s t : string) :
  all_chars (fun c => negb (Ascii.eqb c sep)) s = true ->
  JS.split sep (s +:+ String sep t) = s :: JS.split sep t.
Proof.
  induction s as [|c s IH].
  - intros _. change ("" +:+ String sep t) with (String sep t).
    cbn [JS.split]. by rewrite Ascii.eqb_refl.
  - cbn [all_chars]. intros [Hc Hs]%andb_prop. apply negb_true_iff in Hc.
    rewrite append_cons. cbn [JS.split]. by rewrite Hc, IH.
Qed.

(** Splitting undoes joining when no piece holds the separator. *)
Lemma split_join (sep : ascii) (l : list string) :
  l <> [] ->
  Forall (fun s => all_chars (fun c => negb (Ascii.eqb c sep)) s = true) l ->
  JS.split sep (JS.join (String sep "") l) = l.
Proof.
  intros Hne HF. induction HF as [|s l Hs HF IH]; [done|].
  destruct l as [|s' l].
  - simpl. by apply split_no_sep.
  - unfold JS.join in *. cbn [String.concat].
    change (String sep "" +:+ ?x) with (String sep x).
    rewrite split_app_sep by done. f_equal. by apply IH.
Qed.

Lemma parseInt_show_exact (z : Z) (t : string) :
  Z.abs z < 2 ^ 53 -> ends_number t = true ->
  JS.parseInt (show z +:+ t) = JS.Fin z.
Proof.
  intros Hz Ht.
  assert (Hs : show z = JS.decimal z).
  { destruct z as [|p|p]; [reflexivity|apply show_decimal; lia|].
    unfold show, JS.toString. change (Z.neg p <? 0) with true. cbn iota.
    change (- Z.neg p) with (Z.pos p).
    unfold JS.render_nat.
    destruct (Z.ltb_spec (Z.pos p) (2 ^ 53)); [|lia].
    destruct (Z.ltb_spec (Z.pos p) (10 ^ 21)); [reflexivity|lia]. }
  rewrite Hs, parseInt_decimal by done. by apply to_double_exact.
Qed.

(** [parseInt] reads back the rendering of an integer below 2^53 in
    magnitude, whatever follows it that does not start with a digit. *)
Theorem parseInt_show (z : Z) (t : string) :
  Z.abs z < 2 ^ 53 -> ends_number t = true ->
  JS.parseInt (show z +:+ t) = JS.Fin z.
Proof. apply parseInt_show_exact. Qed.

Lemma parseInt_show_witness :
  JS.parseInt (show 480 +:+ "px") = JS.Fin 480.
Proof. apply parseInt_show; [by vm_compute | reflexivity]. Defined.

Lemma digits_uint (d : Decimal.uint) :
  all_chars JS.is_digit (NilEmpty.string_of_uint d) = true.
Proof. induction d; simpl; [reflexivity|..]; exact IHd. Qed.

Lemma show_digits (z : Z) :
  0 < z < 2 ^ 53 -> all_chars JS.is_digit (show z) = true.
Proof.
  intros Hz. rewrite show_decimal by lia.
  destruct z as [|p|p]; try lia. rewrite decimal_pos. apply digits_uint.
Qed.

Lemma digit_not_comma (c : ascii) : JS.is_digit c = true -> not_comma c = true.
Proof.
  unfold not_comma. intros H. destruct (Ascii.eqb_spec c ","); [|done].
  subst. discriminate H.
Qed.

Lemma space_not_comma (c : ascii) : JS.is_space c = true -> not_comma c = true.
Proof.
  unfold not_comma. intros H. destruct (Ascii.eqb_spec c ","); [|done].
  subst. discriminate H.
Qed.

Lemma digit_no_space (c : ascii) :
  JS.is_digit c = true -> negb (JS.is_space c) = true.
Proof. intros H. by rewrite digit_not_space. Qed.


(** ** Doubles *)

(** A positive integer with a mantissa of 53 bits rounds to itself. *)
Lemma to_double_mantissa (q e : Z) :
  2 ^ 52 <= q < 2 ^ 53 -> 0 <= e -> q * 2 ^ e < 2 ^ 1024 ->
  JS.to_double (q * 2 ^ e) = JS.Fin (q * 2 ^ e)
  ∧ JS.to_double (- (q * 2 ^ e)) = JS.Fin (- (q * 2 ^ e)).
Proof.
  intros Hq He Hm.
  assert (Hp : 0 < 2 ^ e) by (apply Z.pow_pos_nonneg; lia).
  set (m := q * 2 ^ e) in *.
  assert (Hmq : q <= m) by (unfold m; nia).
  assert (Habs : Z.abs m = m ∧ Z.abs (- m) = m) by lia.
  destruct Habs as [Ha Ha'].
  unfold JS.to_double. rewrite Ha, Ha'.
  destruct (Z.ltb_spec m (2 ^ 53)) as [Hlt|Hge]; [done|].
  assert (He1 : 1 <= e).
  { destruct (Z.eq_dec e 0) as [->|]; [|lia]. unfold m in Hge. simpl in Hge. lia. }
  assert (Hlog : Z.log2 m = 52 + e).
  { apply Z.log2_unique; [lia|]. rewrite Z.pow_succ_r, !Z.pow_add_r by lia.
    unfold m. nia. }
  assert (Hdiv : m / 2 ^ e = q) by (unfold m; apply Z.div_mul; lia).
  assert (Hmod : m mod 2 ^ e = 0) by (unfold m; apply Z.mod_mul; lia).
  rewrite Hlog. replace (52 + e - 52) with e by lia. rewrite Hdiv, Hmod.
  assert (Hh : 0 < 2 ^ (e - 1)) by (apply Z.pow_pos_nonneg; lia).
  destruct (Z.ltb_spec (2 ^ (e - 1)) 0); [lia|].
  destruct (Z.eqb_spec 0 (2 ^ (e - 1))); [lia|]. cbn [orb andb].
  change (q * 2 ^ e) with m.
  destruct (Z.leb_spec (2 ^ 1024) m); [lia|].
  rewrite Z.sgn_pos, Z.sgn_neg by lia. split; f_equal; lia.
Qed.

(** What rounding yields rounds to itself. *)
Lemma to_double_idem (v w : Z) :
  JS.to_double v = JS.Fin w -> JS.to_double w = JS.Fin w.
Proof.
  unfold JS.to_double at 1.
  destruct (Z.ltb_spec (Z.abs v) (2 ^ 53)) as [Hlt|Hge].
  { intros [= <-]. unfold JS.to_double.
    by destruct (Z.ltb_spec (Z.abs v) (2 ^ 53)); [|lia]. }
  set (a := Z.abs v) in *.
  set (e := Z.log2 a - 52).
  set (q := a / 2 ^ e).
  set (r := a mod 2 ^ e).
  set (q' := if (2 ^ (e - 1) <? r) || (r =? 2 ^ (e - 1)) && Z.odd q
             then q + 1 else q).
  destruct (Z.leb_spec (2 ^ 1024) (q' * 2 ^ e)) as [|Hm];
    [by destruct (v <? 0)|].
  intros [= <-].
  assert (Ha : 0 < a) by lia.
  pose proof (Z.log2_spec a Ha) as [Hlo Hhi].
  assert (Hl53 : 53 <= Z.log2 a).
  { change 53 with (Z.log2 (2 ^ 53)). by apply Z.log2_le_mono. }
  assert (He : 1 <= e) by (unfold e; lia).
  assert (Hp : 0 < 2 ^ e) by (apply Z.pow_pos_nonneg; lia).
  assert (Hpow : 2 ^ Z.log2 a = 2 ^ 52 * 2 ^ e).
  { rewrite <- Z.pow_add_r by lia. f_equal. unfold e. lia. }
  assert (Hq : 2 ^ 52 <= q < 2 ^ 53).
  { unfold q. split.
    - apply Z.div_le_lower_bound; lia.
    - apply Z.div_lt_upper_bound; [lia|].
      rewrite Z.pow_succ_r in Hhi by lia. lia. }
  assert (Hq' : q' = q ∨ q' = q + 1).
  { unfold q'. destruct ((2 ^ (e - 1) <? r) || (r =? 2 ^ (e - 1)) && Z.odd q); auto. }
  assert (Hrep : exists q2 e2, 2 ^ 52 <= q2 < 2 ^ 53 ∧ 0 <= e2
                               ∧ q' * 2 ^ e = q2 * 2 ^ e2).
  { destruct (Z.eq_dec q' (2 ^ 53)) as [E|NE].
    - exists (2 ^ 52), (e + 1). split; [lia|]. split; [lia|].
      rewrite E, Z.pow_add_r by lia. lia.
    - exists q', e. split; [lia|]. split; [lia|]. reflexivity. }
  destruct Hrep as (q2 & e2 & Hq2 & He2 & Heq).
  rewrite Heq in Hm |- *.
  destruct (to_double_mantissa q2 e2 Hq2 He2 Hm) as [Hpos Hneg].
  destruct v as [|p|p]; [lia| |].
  - simpl Z.sgn. by rewrite Z.mul_1_l.
  - simpl Z.sgn. replace (-1 * (q2 * 2 ^ e2)) with (- (q2 * 2 ^ e2)) by lia.
    exact Hneg.
Qed.

(** ** Printed numbers *)
(** ** Rendering a double identifies it *)

Lemma rounds_to_spec (a c : Z) :
  JS.rounds_to a c = true -> JS.to_double c = JS.Fin a.
Proof.
  unfold JS.rounds_to. destruct (JS.to_double c) as [|a'| |]; try done.
  by intros ->%Z.eqb_eq.
Qed.

(** The integer whose digits are printed is the number itself or rounds
    to it. *)
Lemma shortest_spec (fuel : nat) (a d k : Z) :
  JS.shortest fuel a d k = a
  ∨ JS.to_double (JS.shortest fuel a d k) = JS.Fin a.
Proof.
  revert k. induction fuel as [|fuel IH]; intros k; [by left|].
  cbn [JS.shortest].
  set (p := 10 ^ (d - k)). set (lo := a / p).
  destruct (JS.rounds_to a (lo * p)) eqn:Hlo;
    destruct (JS.rounds_to a ((lo + 1) * p)) eqn:Hhi; cbn [andb];
    repeat match goal with |- context [if ?b then _ else _] => destruct b end;
    auto using rounds_to_spec.
Qed.

Lemma digit_not_e (c : ascii) : JS.is_digit c = true -> not_e c = true.
Proof.
  unfold not_e. intros H. destruct (Ascii.eqb_spec c "e"); [|done].
  subst. discriminate H.
Qed.

Lemma decimal_no_e (z : Z) : all_chars not_e (JS.decimal z) = true.
Proof.
  destruct z as [|p|p]; [reflexivity| |].
  - rewrite decimal_pos. apply (all_chars_impl _ _ _ digit_not_e), digits_uint.
  - rewrite decimal_neg, decimal_pos. cbn [all_chars].
    rewrite (all_chars_impl _ _ _ digit_not_e (digits_uint _)). reflexivity.
Qed.

Lemma drop_zeros_chars (P : ascii -> bool) (s : string) :
  all_chars P s = true -> all_chars P (JS.drop_zeros s) = true.
Proof.
  induction s as [|c s IH]; [done|]. cbn [all_chars JS.drop_zeros].
  intros [Hc Hs]%andb_prop. specialize (IH Hs).
  destruct (JS.drop_zeros s) as [|c' t].
  - destruct (Ascii.eqb c "0"); [done|]. cbn [all_chars]. by rewrite Hc.
  - cbn [all_chars] in *. by rewrite Hc, IH.
Qed.

Lemma zeros_length (n : nat) : String.length (zeros n) = n.
Proof. induction n as [|n IH]; [done|]. simpl. by rewrite IH. Qed.

(** A digit string is its significant part followed by zeros. *)
Lemma drop_zeros_spec (s : string) :
  exists n, s = JS.drop_zeros s +:+ zeros n.
Proof.
  induction s as [|c s [n IH]]; [by exists 0%nat|]. cbn [JS.drop_zeros].
  destruct (JS.drop_zeros s) as [|c' t] eqn:E.
  - destruct (Ascii.eqb_spec c "0") as [->|Hc].
    + exists (S n). change ("" +:+ zeros n) with (zeros n) in IH.
      rewrite IH at 1. reflexivity.
    + exists n. rewrite append_cons. by rewrite <- IH.
  - exists n. rewrite append_cons. by rewrite <- IH.
Qed.

Lemma same_digits (s1 s2 : string) :
  JS.drop_zeros s1 = JS.drop_zeros s2 ->
  String.length s1 = String.length s2 -> s1 = s2.
Proof.
  intros Hd Hl.
  destruct (drop_zeros_spec s1) as [n1 H1], (drop_zeros_spec s2) as [n2 H2].
  rewrite H1, H2, Hd in Hl. rewrite !append_length, !zeros_length in Hl.
  assert (n1 = n2) as -> by lia. by rewrite H1, H2, Hd.
Qed.

Lemma mantissa_inj (x y : string) : JS.mantissa x = JS.mantissa y -> x = y.
Proof.
  destruct x as [|c [|c2 r]], y as [|d [|d2 r']]; simpl; congruence.
Qed.

Lemma mantissa_no_e (x : string) :
  all_chars not_e x = true -> all_chars not_e (JS.mantissa x) = true.
Proof.
  destruct x as [|c [|c2 r]]; [done..|]. cbn [all_chars JS.mantissa].
  intros [Hc Hr]%andb_prop. rewrite Hc. cbn [all_chars] in Hr. by rewrite Hr.
Qed.

(** Two strings that are free of [e] up to an [e] agree on both sides of
    it. *)
Lemma split_at_e (m1 m2 x1 x2 : string) :
  all_chars not_e m1 = true -> all_chars not_e m2 = true ->
  m1 +:+ String "e" x1 = m2 +:+ String "e" x2 -> m1 = m2 ∧ x1 = x2.
Proof.
  revert m2. induction m1 as [|c m1 IH]; intros [|d m2];
    rewrite ?append_cons; change ("" +:+ ?x) with x; cbn [all_chars].
  - by intros _ _ [= ->].
  - intros _ [Hd _]%andb_prop [= <- _]. discriminate Hd.
  - intros [Hc _]%andb_prop _ [= -> _]. discriminate Hc.
  - intros [_ H1]%andb_prop [_ H2]%andb_prop [= -> H].
    destruct (IH m2 H1 H2 H) as [-> ->]. done.
Qed.

Lemma exponent_form_inj (v1 v2 : Z) :
  JS.exponent_form v1 = JS.exponent_form v2 -> v1 = v2.
Proof.
  unfold JS.exponent_form.
  change ("e+" +:+ ?x) with (String "e" (String "+" x)).
  intros H. apply split_at_e in H as [Hm [= Hn]];
    [|apply mantissa_no_e, drop_zeros_chars, decimal_no_e..].
  apply mantissa_inj in Hm. apply decimal_inj in Hn.
  apply decimal_inj, same_digits; [done|lia].
Qed.

Lemma exponent_form_has_e (v : Z) : all_chars not_e (JS.exponent_form v) = false.
Proof.
  unfold JS.exponent_form. rewrite all_chars_app.
  change ("e+" +:+ ?x) with (String "e" (String "+" x)). cbn [all_chars].
  apply andb_false_r.
Qed.

(** The digits printed identify the integer they are the digits of. *)
Lemma printed_inj (v1 v2 : Z) :
  (if v1 <? 10 ^ 21 then JS.decimal v1 else JS.exponent_form v1)
  = (if v2 <? 10 ^ 21 then JS.decimal v2 else JS.exponent_form v2) ->
  v1 = v2.
Proof.
  destruct (v1 <? 10 ^ 21), (v2 <? 10 ^ 21); intros H.
  - by apply decimal_inj.
  - pose proof (decimal_no_e v1) as Hn. rewrite H, exponent_form_has_e in Hn. done.
  - pose proof (decimal_no_e v2) as Hn. rewrite <- H, exponent_form_has_e in Hn. done.
  - by apply exponent_form_inj.
Qed.

(** Two doubles printed alike are equal. *)
Lemma render_nat_inj (a b : Z) :
  JS.to_double a = JS.Fin a -> JS.to_double b = JS.Fin b ->
  JS.render_nat a = JS.render_nat b -> a = b.
Proof.
  intros Ha Hb. unfold JS.render_nat.
  set (va := if a <? 2 ^ 53 then a else JS.shortest _ a _ _).
  set (vb := if b <? 2 ^ 53 then b else JS.shortest _ b _ _).
  assert (Hva : va = a ∨ JS.to_double va = JS.Fin a).
  { unfold va. destruct (a <? 2 ^ 53); [by left|apply shortest_spec]. }
  assert (Hvb : vb = b ∨ JS.to_double vb = JS.Fin b).
  { unfold vb. destruct (b <? 2 ^ 53); [by left|apply shortest_spec]. }
  clearbody va vb. intros E%printed_inj. subst vb.
  destruct Hva as [<-|Hva], Hvb as [<-|Hvb]; congruence.
Qed.

Lemma show_inj (a b : Z) :
  0 <= a -> 0 <= b ->
  JS.to_double a = JS.Fin a -> JS.to_double b = JS.Fin b ->
  show a = show b -> a = b.
Proof.
  intros H0a H0b Ha Hb. unfold show, JS.toString.
  destruct (Z.ltb_spec a 0); [lia|]. destruct (Z.ltb_spec b 0); [lia|].
  by apply render_nat_inj.
Qed.

Lemma parseInt_double (s : string) (w : Z) :
  JS.parseInt s = JS.Fin w -> JS.to_double w = JS.Fin w.
Proof.
  unfold JS.parseInt.
  destruct (match JS.trimStart s with
            | String "-" t' => (true, t')
            | String "+" t' => (false, t')
            | _ => (false, JS.trimStart s)
            end) as [neg body].
  destruct (JS.digits_prefix None body) as [v|]; [|done].
  apply to_double_idem.
Qed.


(** File names tell the width and the format apart. *)
Lemma fileName_inj (baseName : string) (w w' : Z) (f f' : Format) :
  0 <= w -> 0 <= w' ->
  JS.to_double w = JS.Fin w -> JS.to_double w' = JS.Fin w' ->
  fileName baseName w f = fileName baseName w' f' -> w = w' ∧ f = f'.
Proof.
  intros Hw Hw' Hd Hd'. unfold fileName. intros H.
  apply append_inv_head, append_inv_head in H.
  apply append_inv_tail in H as [Hs Hf]; [|by destruct f, f'].
  split; [by apply show_inj|]. by destruct f, f'.
Qed.

(** ** The resolved configuration *)

Lemma finite_positive_Some (n : JS.number) (z : Z) :
  finite_positive n = Some z ↔ n = JS.Fin z ∧ 0 < z.
Proof.
  unfold finite_positive. destruct n as [|x| |]; simpl; try (split; [done | intros [[=] _]]).
  destruct (Z.ltb_spec 0 x); split.
  - intros [= ->]. auto.
  - intros [[= ->] _]. reflexivity.
  - discriminate.
  - intros [[= ->] ?]. lia.
Qed.

Lemma resolve_widths_sorted (body : gmap string string) :
  StronglySorted Z.le (resolve_widths body).
Proof. apply StronglySorted_merge_sort; apply _. Qed.

Lemma resolve_widths_positive (body : gmap string string) (w : Z) :
  w ∈ resolve_widths body -> 0 < w.
Proof.
  unfold resolve_widths, sort_ascending. rewrite merge_sort_Permutation.
  intros (n & _ & H)%list_elem_of_omap. by apply finite_positive_Some in H as [_ ?].
Qed.

(** Every resolved width is a double. *)
Lemma resolve_widths_double (body : gmap string string) (w : Z) :
  w ∈ resolve_widths body -> JS.to_double w = JS.Fin w.
Proof.
  unfold resolve_widths, sort_ascending. rewrite merge_sort_Permutation.
  intros (n & Hn & Hfp)%list_elem_of_omap.
  apply finite_positive_Some in Hfp as [-> _].
  apply list_elem_of_fmap in Hn as (t & Ht & _). symmetry in Ht.
  by apply parseInt_double in Ht.
Qed.


Lemma resolve_formats_nonempty (body : gmap string string) :
  resolve_formats body <> [].
Proof. unfold resolve_formats. by destruct (omap _ _). Qed.

Lemma feasible_spec (origW : Z) (widths : list Z) (w : Z) :
  w ∈ feasible origW widths ↔ w ∈ widths ∧ w <= origW.
Proof. unfold feasible. rewrite list_elem_of_filter. tauto. Qed.

Lemma feasible_sorted (origW : Z) (widths : list Z) :
  StronglySorted Z.le widths -> StronglySorted Z.le (feasible origW widths).
Proof.
  intros H. induction H as [|w ws Hs IH Hall]; unfold feasible.
  - constructor.
  - rewrite filter_cons. case_decide; [|exact IH].
    constructor; [exact IH|].
    apply Forall_forall. intros x Hx%list_elem_of_filter.
    rewrite Forall_forall in Hall. apply Hall. tauto.
Qed.

Lemma feasible_NoDup (origW : Z) (widths : list Z) :
  NoDup widths -> NoDup (feasible origW widths).
Proof. apply NoDup_filter. Qed.

(** The head of a sorted list is its least element. *)
Lemma sorted_head_least (ws : list Z) (w0 : Z) :
  StronglySorted Z.le ws -> ws !! 0%nat = Some w0 ->
  w0 ∈ ws ∧ forall w, w ∈ ws -> w0 <= w.
Proof.
  intros Hs. destruct Hs as [|x xs _ Hall]; [discriminate|].
  intros [= ->]. split; [left|].
  intros w [->|Hin]%elem_of_cons; [lia|].
  rewrite Forall_forall in Hall. auto.
Qed.

(** ** What [generate] leaves in [outputs] *)

Section GenerateFacts.

Context (sharp : Sharp) (file : File) (formats : list Format).
Context (qWebp qAvif : JS.number) (baseName : string).

Local Abbreviation gen := (generate sharp file formats qWebp qAvif baseName).
Local Abbreviation result := (pair_result sharp file qWebp qAvif).
Local Abbreviation output := (pair_output sharp file qWebp qAvif baseName).
Local Abbreviation call := (pair_call qWebp qAvif).

Lemma generate_return ws log u h :
  gen ws log = (Return u, h) ->
  Forall (fun p => resolves (result p)) (pairs formats ws)
  ∧ outputs h = omap output (pairs formats ws)
  ∧ length (outputs h) = length (pairs formats ws)
  ∧ calls h = log ++ (call <$> pairs formats ws).
Proof.
  unfold generate. rewrite for_of_pairs. intros H.
  apply for_of_pairs_return in H as (HF & Ho & Hl & Hc). simpl in *.
  rewrite Ho. auto.
Qed.

Lemma generate_resolves ws log :
  Forall (fun p => resolves (result p)) (pairs formats ws) ->
  exists h, gen ws log = (Return tt, h).
Proof. unfold generate. rewrite for_of_pairs. apply for_of_pairs_resolves. Qed.

Lemma generate_throw ws log w f :
  w ∈ ws -> f ∈ formats ->
  ¬ resolves (toBuffer sharp (buffer file) w f (quality_of qWebp qAvif f)) ->
  exists e h, gen ws log = (Throw e, h).
Proof.
  intros Hw Hf Hth. unfold generate. rewrite for_of_pairs.
  apply for_of_pairs_throw, Exists_exists. exists (w, f).
  split; [|exact Hth]. apply elem_of_pairs. auto.
Qed.

Lemma pair_output_Some p o :
  output p = Some o ->
  name o = fileName baseName p.1 p.2 ∧ fmt o = p.2 ∧ width o = p.1.
Proof.
  unfold pair_output. destruct (result p); [|discriminate].
  intros [= <-]. auto.
Qed.

Lemma pairs_nonempty ws : ws <> [] -> formats <> [] -> pairs formats ws <> [].
Proof.
  intros Hws Hfs. destruct ws as [|w ws]; [done|].
  destruct formats as [|f fs] eqn:E; [done|].
  assert (Hin : (w, f) ∈ pairs (f :: fs) (w :: ws)).
  { apply elem_of_pairs. split; left. }
  intros Hnil. rewrite Hnil in Hin. by apply elem_of_nil in Hin.
Qed.

(** A completed generation over some width and some format is not empty. *)
Lemma generate_nonempty ws log u h :
  ws <> [] -> formats <> [] -> gen ws log = (Return u, h) -> outputs h <> [].
Proof.
  intros Hws Hfs (_ & _ & Hl & _)%generate_return Hnil.
  rewrite Hnil in Hl. symmetry in Hl. apply length_zero_iff_nil in Hl.
  by apply pairs_nonempty in Hl.
Qed.

End GenerateFacts.

(** ** Counting *)

Lemma filter_absent `{EqDecision A} (x : A) (l : list A) :
  x ∉ l -> filter (fun y => y = x) l = [].
Proof.
  induction l as [|y l IH]; [reflexivity|].
  intros Hx. apply not_elem_of_cons in Hx as [Hne Hx].
  rewrite filter_cons, decide_False by congruence. auto.
Qed.

Lemma count_singleton `{EqDecision A} (x : A) (l : list A) :
  NoDup l -> x ∈ l -> length (filter (fun y => y = x) l) = 1%nat.
Proof.
  induction 1 as [|y l Hy Hnd IH]; [by intros ?%elem_of_nil|].
  rewrite filter_cons. intros [->|Hin]%elem_of_cons.
  - rewrite decide_True by done. simpl. by rewrite filter_absent.
  - rewrite decide_False by (intros ->; contradiction). auto.
Qed.

Section OutputFacts.

Context (sharp : Sharp) (file : File) (formats : list Format).
Context (qWebp qAvif : JS.number) (baseName : string).

Local Abbreviation result := (pair_result sharp file qWebp qAvif).
Local Abbreviation output := (pair_output sharp file qWebp qAvif baseName).

Lemma pair_output_resolves p :
  resolves (result p) ->
  exists b, output p = Some {| name := fileName baseName p.1 p.2;
                               fmt := p.2; width := p.1; buf := b |}.
Proof.
  unfold pair_output. destruct (result p) as [b|e]; [eauto | intros []].
Qed.

Lemma count_outputs_pairs ps w f :
  Forall (fun p => resolves (result p)) ps ->
  count_outputs w f (omap output ps) = length (filter (fun p => p = (w, f)) ps).
Proof.
  unfold count_outputs. induction 1 as [|[w' f'] ps Hp _ IH]; [reflexivity|].
  destruct (pair_output_resolves _ Hp) as [b Hb]. simpl in Hb.
  cbn [omap list_omap]. rewrite Hb, !filter_cons. simpl.
  destruct (decide (w' = w ∧ f' = f)) as [[-> ->]|Hne].
  - rewrite decide_True by done. simpl. by rewrite IH.
  - rewrite decide_False by (intros [= -> ->]; auto). exact IH.
Qed.

Lemma NoDup_encoded_formats : NoDup (encoded_formats formats).
Proof.
  unfold encoded_formats.
  destruct (includes webp formats), (includes avif formats); simpl;
    repeat (constructor; [rewrite ?elem_of_cons, ?elem_of_nil; intuition congruence|]);
    constructor.
Qed.

Lemma NoDup_pairs ws : NoDup ws -> NoDup (pairs formats ws).
Proof.
  intros Hnd. unfold pairs. apply NoDup_bind; [| |exact Hnd].
  - intros w1 w2 [w f] _ _ (f1 & [= -> ->] & _)%list_elem_of_fmap
      (f2 & [= -> _] & _)%list_elem_of_fmap. reflexivity.
  - intros w _. apply NoDup_fmap_2_strong; [|apply NoDup_encoded_formats].
    by intros f1 f2 _ _ [= ->].
Qed.

(** The entries of one format, in the order of the widths. *)
Lemma srcset_of_outputs ws f :
  Forall (fun p => resolves (result p)) (pairs formats ws) ->
  srcset_entry <$> filter (fun o => fmt o = f) (omap output (pairs formats ws))
  = if includes f formats then srcset_of baseName f ws else [].
Proof.
  induction ws as [|w ws IH].
  - intros _. by destruct (includes f formats).
  - unfold pairs. rewrite bind_cons. fold (pairs formats ws).
    intros [Hhd Htl]%Forall_app. specialize (IH Htl).
    rewrite omap_app, filter_app, fmap_app, IH. clear IH Htl.
    unfold encoded_formats in *.
    destruct (includes webp formats) eqn:Ew, (includes avif formats) eqn:Ea;
      cbn [fmap list_fmap app omap list_omap] in *;
      repeat match goal with
        | H : Forall _ (_ :: _) |- _ =>
            let Hp := fresh "Hp" in
            apply Forall_cons in H as [Hp H];
            destruct (pair_output_resolves _ Hp) as [? ->]
        end;
      rewrite ?filter_cons, ?filter_nil; simpl;
      destruct f; simpl; rewrite ?Ew, ?Ea; reflexivity.
Qed.

End OutputFacts.

Lemma foldl_srcsets_push (acc : Srcsets) (outs : list Output) :
  foldl srcsets_push acc outs =
    {| srcsets_webp := srcsets_webp acc
         ++ (srcset_entry <$> filter (fun o => fmt o = webp) outs);
       srcsets_avif := srcsets_avif acc
         ++ (srcset_entry <$> filter (fun o => fmt o = avif) outs) |}.
Proof.
  revert acc. induction outs as [|o outs IH]; intros acc; simpl.
  - rewrite !app_nil_r. by destruct acc.
  - rewrite IH, !filter_cons. unfold srcsets_push.
    destruct (fmt o); simpl; rewrite <- ?app_assoc; reflexivity.
Qed.

Lemma collect_srcsets_spec (outs : list Output) :
  collect_srcsets outs =
    {| srcsets_webp := srcset_entry <$> filter (fun o => fmt o = webp) outs;
       srcsets_avif := srcset_entry <$> filter (fun o => fmt o = avif) outs |}.
Proof. unfold collect_srcsets. by rewrite foldl_srcsets_push. Qed.

(** ** The loop over the files of a batch *)

Section BatchFacts.

Context (sharp : Sharp) (widths : list Z) (formats : list Format).
Context (qWebp qAvif : JS.number).

Local Abbreviation iter := (batch_iteration sharp widths formats qWebp qAvif).
Local Abbreviation turn := (batch_turn sharp widths formats qWebp qAvif).
Local Abbreviation loop := (batch_loop sharp widths formats qWebp qAvif).

Lemma foldl_batch_turn st files :
  foldl turn st files =
    {| allOutputs := allOutputs st ++ (files ≫= fun file => contribution (iter file).1);
       allSnippets := allSnippets st ++ omap (fun file => snd <$> (iter file).1) files;
       batch_calls := batch_calls st ++ (files ≫= fun file => (iter file).2) |}.
Proof.
  revert st. induction files as [|file files IH]; intros st.
  - simpl. rewrite !app_nil_r. by destruct st.
  - cbn [foldl]. rewrite IH. unfold batch_turn. rewrite !bind_cons.
    cbn [omap list_omap].
    destruct (iter file) as [[[outs doc]|] cs]; simpl;
      rewrite <- ?app_assoc; reflexivity.
Qed.

(** The archive of a batch is made of what each file contributes on its
    own, in the order of the files. *)
Lemma batch_loop_spec files :
  loop files =
    {| allOutputs := files ≫= (fun file => contribution (iter file).1);
       allSnippets := omap (fun file => snd <$> (iter file).1) files;
       batch_calls := files ≫= (fun file => (iter file).2) |}.
Proof. unfold batch_loop. by rewrite foldl_batch_turn. Qed.

End BatchFacts.

(** * The claims of the specification *)

(** ** Widths (C1) *)

(** An absent [widths] field resolves to the default breakpoints. *)
Lemma resolve_widths_absent (body : gmap string string) :
  body !! "widths" = None -> resolve_widths body = defaultBreakpoints.
Proof. intros H. unfold resolve_widths. rewrite H. by vm_compute. Qed.

(** A present field is never replaced by the defaults: what it resolves
    to is decided by its own tokens. *)
Lemma resolve_widths_present (body : gmap string string) (s : string) :
  body !! "widths" = Some s ->
  resolve_widths body =
    sort_ascending
      (omap finite_positive ((fun t => JS.parseInt (JS.trim t)) <$> JS.split "," s)).
Proof. intros H. unfold resolve_widths. by rewrite H. Qed.

(** In particular a present field without any finite positive token
    resolves to the empty list. *)
Lemma resolve_widths_all_invalid (body : gmap string string) (s : string) :
  body !! "widths" = Some s ->
  omap finite_positive ((fun t => JS.parseInt (JS.trim t)) <$> JS.split "," s) = [] ->
  resolve_widths body = [].
Proof.
  intros H Hnil. rewrite (resolve_widths_present _ _ H), Hnil. reflexivity.
Qed.

(** C1, evaluated on the code. The claim wants a [widths] field whose
    tokens all fail the finite-and-positive filter to resolve to the
    default breakpoints 480, 768, 1200, without failing the request. The
    handlers substitute the defaults for an absent field only: the field
    [abc] resolves to the empty list (no exception is raised by the
    resolution), and [POST /process] then answers with the
    all-widths-exceed-original error for a 1600 pixel wide image. The
    [formats] field next to it does fall back, to [webp], when its filter
    leaves nothing. *)
Theorem malformed_widths_resolve_to_nothing :
  resolve_widths {[ "widths" := "abc" ]} = []
  ∧ resolve_widths ∅ = defaultBreakpoints
  ∧ resolve_formats {[ "formats" := "gif" ]} = [webp]
  ∧ process (sample_sharp 1600 [])
      {| req_file := Some photo; req_body := {[ "widths" := "abc" ]} |}
    = (AllWidthsExceedOriginal 1600, [CallMetadata]).
Proof. by vm_compute. Qed.

(** ** Quality (C3) *)

Lemma resolve_quality_absent (field dflt : string) (body : gmap string string) :
  body !! field = None ->
  resolve_quality field dflt body = clamp_quality (JS.parseInt dflt).
Proof. intros H. unfold resolve_quality. by rewrite H. Qed.

Lemma qWebp_absent (body : gmap string string) :
  body !! "quality_webp" = None -> qWebp body = JS.Fin 82.
Proof. intros H. unfold qWebp. by rewrite resolve_quality_absent. Qed.

Lemma qAvif_absent (body : gmap string string) :
  body !! "quality_avif" = None -> qAvif body = JS.Fin 55.
Proof. intros H. unfold qAvif. by rewrite resolve_quality_absent. Qed.

(** A field that parses to an integer is clamped into [1, 100]. *)
Lemma resolve_quality_numeric (field dflt s : string) (z : Z)
    (body : gmap string string) :
  body !! field = Some s -> JS.parseInt s = JS.Fin z ->
  resolve_quality field dflt body = JS.Fin (Z.min 100 (Z.max 1 z)).
Proof. intros H Hp. unfold resolve_quality. rewrite H. simpl. by rewrite Hp. Qed.

(** A field that does not parse stays [NaN] through both clamps. *)
Lemma resolve_quality_non_numeric (field dflt s : string)
    (body : gmap string string) :
  body !! field = Some s -> JS.parseInt s = JS.NaN ->
  resolve_quality field dflt body = JS.NaN.
Proof. intros H Hp. unfold resolve_quality. rewrite H. simpl. by rewrite Hp. Qed.

(** C3, evaluated on the code. The claim: an absent quality field
    resolves to 82 (webp) or 55 (avif), a number outside [1, 100] is
    clamped (0 gives 1, 500 gives 100), and a non-numeric value resolves
    to the default of the format. The first two parts hold on the code;
    for the non-numeric value [high], [parseInt] gives [NaN], which
    [Math.max] and [Math.min] hand on: the resolved quality is [NaN], not
    82 or 55, and it is the quality the codec is called with. *)
Theorem non_numeric_quality_is_NaN :
  qWebp ∅ = JS.Fin 82 ∧ qAvif ∅ = JS.Fin 55
  ∧ qWebp {[ "quality_webp" := "0" ]} = JS.Fin 1
  ∧ qWebp {[ "quality_webp" := "500" ]} = JS.Fin 100
  ∧ qWebp {[ "quality_webp" := "high" ]} = JS.NaN
  ∧ qAvif {[ "quality_avif" := "high" ]} = JS.NaN
  ∧ (process (sample_sharp 1600 [])
       {| req_file := Some photo;
          req_body := {[ "quality_webp" := "high"; "widths" := "480" ]} |}).2
    = [CallMetadata; CallToBuffer 480 webp JS.NaN].
Proof. by vm_compute. Qed.

(** ** Infeasible widths (C5) *)

(** C5. In a single-image request whose resolved widths all strictly
    exceed the intrinsic width of the image, the answer is the
    all-widths-exceed-original error carrying that intrinsic width, the
    codec is asked for the metadata and for nothing else, and no archive
    is produced. (An image has an intrinsic width when its metadata can be
    read and reports a width other than zero.) *)
Theorem all_widths_exceed_original (sharp : Sharp) (file : File)
    (body : gmap string string) (meta : Metadata) (origW : Z) :
  metadata sharp (buffer file) = Return meta ->
  meta_width meta = Some origW ->
  origW <> 0 ->
  (forall w, w ∈ resolve_widths body -> origW < w) ->
  process sharp {| req_file := Some file; req_body := body |}
  = (AllWidthsExceedOriginal origW, [CallMetadata]).
Proof.
  intros Hm Hw Hpos Hall. unfold process. simpl. rewrite Hm, Hw.
  destruct (Z.eqb_spec origW 0) as [->|_]; [done|].
  assert (Hnil : feasible origW (resolve_widths body) = []).
  { destruct (feasible origW (resolve_widths body)) as [|w ws] eqn:E; [reflexivity|].
    assert (Hin : w ∈ feasible origW (resolve_widths body)) by (rewrite E; left).
    apply feasible_spec in Hin as [Hin Hle]. apply Hall in Hin. lia. }
  by rewrite Hnil.
Qed.

Lemma all_widths_exceed_original_witness :
  process (sample_sharp 1200 [])
    {| req_file := Some photo; req_body := {[ "widths" := "2000" ]} |}
  = (AllWidthsExceedOriginal 1200, [CallMetadata]).
Proof.
  apply (all_widths_exceed_original _ _ _ {| meta_width := Some 1200 |} 1200).
  - reflexivity.
  - reflexivity.
  - discriminate.
  - intros w Hw.
    replace (resolve_widths {[ "widths" := "2000" ]}) with [2000] in Hw
      by (by vm_compute).
    apply list_elem_of_singleton in Hw. lia.
Defined.

(** ** Repeated widths (C2) *)

Section DistinctOutputs.

Context (sharp : Sharp) (file : File) (formats : list Format).
Context (qWebp qAvif : JS.number) (baseName : string).

Local Abbreviation result := (pair_result sharp file qWebp qAvif).
Local Abbreviation output := (pair_output sharp file qWebp qAvif baseName).

Lemma outputs_keys ps :
  Forall (fun p => resolves (result p)) ps ->
  (fun o => (width o, fmt o)) <$> omap output ps = ps.
Proof.
  induction 1 as [|[w f] ps Hp _ IH]; [reflexivity|].
  destruct (pair_output_resolves _ _ _ _ baseName _ Hp) as [b Hb].
  cbn [omap list_omap]. rewrite Hb. rewrite fmap_cons. simpl. f_equal. exact IH.
Qed.

Lemma outputs_names ps :
  Forall (fun p => resolves (result p)) ps ->
  name <$> omap output ps = (fun p => fileName baseName p.1 p.2) <$> ps.
Proof.
  induction 1 as [|[w f] ps Hp _ IH]; [reflexivity|].
  destruct (pair_output_resolves _ _ _ _ baseName _ Hp) as [b Hb].
  cbn [omap list_omap]. rewrite Hb. rewrite fmap_cons. simpl. f_equal. exact IH.
Qed.

End DistinctOutputs.

(** C2, as the code has it: a repeated width is kept. The field
    [480,480] resolves to the list 480, 480, which has a duplicate, and
    the archive of the request carries the entry [photo-480.webp] twice. *)
Lemma repeated_width_repeats_outputs :
  resolve_widths {[ "widths" := "480,480" ]} = [480; 480]
  ∧ ¬ NoDup (resolve_widths {[ "widths" := "480,480" ]})
  ∧ archive_names
      (process (sample_sharp 1600 [])
         {| req_file := Some photo; req_body := {[ "widths" := "480,480" ]} |}).1
    = ["photo-480.webp"; "photo-480.webp"; "snippet.html"].
Proof.
  split; [by vm_compute|]. split; [|by vm_compute].
  replace (resolve_widths {[ "widths" := "480,480" ]}) with [480; 480]
    by (by vm_compute).
  intros Hnd. apply NoDup_cons in Hnd as [Hnot _]. apply Hnot. left.
Qed.

(** C2, amended. For every raw widths input the resolved widths are the
    entries of the input that parse to a finite positive integer, each as
    often as the input names it (a permutation of them, so a width named
    several times is kept as often), in ascending order. Whenever the
    resolved widths hold no duplicate, the outputs generated for one
    source image, whatever its intrinsic width, hold no two entries with
    the same (width, format) pair and no two entries with the same file
    name. *)
Theorem distinct_widths_give_distinct_outputs (sharp : Sharp) (file : File)
    (body : gmap string string) (baseName : string) (origW : Z)
    (log : list Call) (u : unit) (h : Heap) :
  (resolve_widths body
   ≡ₚ omap finite_positive
        ((fun s => JS.parseInt (JS.trim s))
         <$> JS.split ","
               (default (JS.join "," (show <$> defaultBreakpoints))
                  (body !! "widths")))
   ∧ StronglySorted Z.le (resolve_widths body))
  ∧ (NoDup (resolve_widths body) ->
     generate sharp file (resolve_formats body) (qWebp body) (qAvif body)
       baseName (feasible origW (resolve_widths body)) log = (Return u, h) ->
     NoDup ((fun o => (width o, fmt o)) <$> outputs h)
     ∧ NoDup (name <$> outputs h)).
Proof.
  split; [split; [apply merge_sort_Permutation|apply resolve_widths_sorted]|].
  intros Hnd (HF & Ho & _ & _)%generate_return.
  assert (Hps : NoDup (pairs (resolve_formats body)
                         (feasible origW (resolve_widths body))))
    by (apply NoDup_pairs, feasible_NoDup, Hnd).
  rewrite Ho. split.
  - by rewrite outputs_keys.
  - rewrite outputs_names by done.
    apply NoDup_fmap_2_strong; [|exact Hps].
    intros [w f] [w' f'] [Hw _]%elem_of_pairs [Hw' _]%elem_of_pairs Heq.
    apply feasible_spec in Hw as [Hw _], Hw' as [Hw' _].
    pose proof (resolve_widths_positive _ _ Hw).
    pose proof (resolve_widths_positive _ _ Hw').
    apply resolve_widths_double in Hw, Hw'. simpl in Heq.
    apply fileName_inj in Heq as [-> ->]; [done|lia..|done|done].
Qed.

Lemma distinct_widths_give_distinct_outputs_witness :
  let h := (generate (sample_sharp 1600 []) photo (resolve_formats ∅)
              (qWebp ∅) (qAvif ∅) "photo"
              (feasible 1600 (resolve_widths ∅)) []).2 in
  NoDup ((fun o => (width o, fmt o)) <$> outputs h)
  ∧ NoDup (name <$> outputs h).
Proof.
  intros h.
  apply (distinct_widths_give_distinct_outputs
           (sample_sharp 1600 []) photo ∅ "photo" 1600 [] tt h).
  - replace (resolve_widths ∅) with [480; 768; 1200] by (by vm_compute).
    repeat (constructor; [rewrite ?elem_of_cons, ?elem_of_nil; lia|]).
    constructor.
  - by vm_compute.
Defined.

(** ** Base names (C4) *)

Lemma no_dot_app_dot (s t : string) : no_dot (s +:+ "." +:+ t) = false.
Proof.
  induction s as [|c s IH]; [reflexivity|].
  rewrite append_cons. simpl. rewrite IH. apply andb_false_r.
Qed.

(** A last dot followed by at least one character starts the extension,
    which is removed together with the dot. *)
Lemma strip_extension_ext (s e : string) :
  e <> "" -> no_dot e = true -> strip_extension (s +:+ "." +:+ e) = s.
Proof.
  intros He Hnd. induction s as [|c s IH].
  - change ("" +:+ "." +:+ e) with (String "." e). simpl. rewrite Hnd.
    apply String.eqb_neq in He. by rewrite He.
  - rewrite append_cons. simpl.
    rewrite no_dot_app_dot, andb_false_r. by rewrite IH.
Qed.

(** A name without a dot is kept. *)
Lemma strip_extension_no_dot (s : string) :
  no_dot s = true -> strip_extension s = s.
Proof.
  induction s as [|c s IH]; [reflexivity|]. simpl.
  intros [Hc Hs]%andb_prop. apply negb_true_iff in Hc. rewrite Hc. simpl.
  by rewrite IH.
Qed.

(** So is a name that ends in a dot. *)
Lemma strip_extension_trailing_dot (s : string) :
  strip_extension (s +:+ ".") = s +:+ ".".
Proof.
  induction s as [|c s IH]; [reflexivity|].
  rewrite append_cons. simpl.
  change (s +:+ ".") with (s +:+ "." +:+ "") at 2.
  rewrite no_dot_app_dot, andb_false_r. by rewrite IH.
Qed.

(** The batch handler never reads the [basename] field. *)
Lemma process_batch_ignores_basename (sharp : Sharp) (files : list File)
    (body : gmap string string) (b : string) :
  process_batch sharp {| req_files := files; batch_body := <["basename" := b]> body |}
  = process_batch sharp {| req_files := files; batch_body := body |}.
Proof.
  unfold process_batch, resolve_widths, resolve_formats, qWebp, qAvif,
    resolve_quality. simpl.
  by rewrite !lookup_insert_ne.
Qed.

(** C4, as the code has it: a provided base name loses what looks like
    an extension, and the batch handler names the outputs after the
    uploaded file whatever the [basename] field says. *)
Lemma basename_is_not_kept_as_given :
  baseName_single {[ "basename" := "logo.v2" ]} photo <> "logo.v2"
  ∧ baseName_single {[ "basename" := "logo.v2" ]} photo = "logo"
  ∧ archive_names
      (process_batch (sample_sharp 1600 [])
         {| req_files := [photo];
            batch_body := {[ "basename" := "hero"; "widths" := "480" ]} |}).1
    = ["photo-480.webp"; "snippets.html"].
Proof. split; [by vm_compute|]. split; by vm_compute. Qed.

(** C4, amended. In a single-image request the base name is the
    [basename] field when provided, else the original file name, else the
    literal [image], in each case with a trailing extension removed (a
    last dot followed by one or more characters; a name without a dot or
    ending in a dot is kept). In a batch request the [basename] field is
    not read: each image is named after its original file name with the
    trailing extension removed, or [image] when it has none, and the
    response is the same with and without the field. *)
Theorem baseName_resolution (body : gmap string string) (file : File) :
  (forall b, body !! "basename" = Some b ->
     baseName_single body file = strip_extension b)
  ∧ (forall n, body !! "basename" = None -> originalname file = Some n ->
       baseName_single body file = strip_extension n)
  ∧ (body !! "basename" = None -> originalname file = None ->
       baseName_single body file = "image")
  ∧ (forall n, originalname file = Some n -> baseName_batch file = strip_extension n)
  ∧ (originalname file = None -> baseName_batch file = "image")
  ∧ (forall s e, e <> "" -> no_dot e = true -> strip_extension (s +:+ "." +:+ e) = s)
  ∧ (forall s, no_dot s = true -> strip_extension s = s)
  ∧ (forall s, strip_extension (s +:+ ".") = s +:+ ".")
  ∧ (forall sharp files b,
       process_batch sharp {| req_files := files; batch_body := <["basename" := b]> body |}
       = process_batch sharp {| req_files := files; batch_body := body |}).
Proof.
  unfold baseName_single, baseName_batch. repeat split.
  - by intros b ->.
  - by intros n -> ->.
  - by intros -> ->.
  - by intros n ->.
  - by intros ->.
  - apply strip_extension_ext.
  - apply strip_extension_no_dot.
  - apply strip_extension_trailing_dot.
  - intros. apply process_batch_ignores_basename.
Qed.

Lemma baseName_resolution_witness :
  baseName_single {[ "basename" := "logo.v2" ]} photo = strip_extension "logo.v2"
  ∧ strip_extension ("logo" +:+ "." +:+ "v2") = "logo".
Proof.
  destruct (baseName_resolution {[ "basename" := "logo.v2" ]} photo)
    as (Hb & _ & _ & _ & _ & Hext & _).
  split.
  - apply Hb. reflexivity.
  - apply Hext; [discriminate | reflexivity].
Defined.

(** ** Skipped turns (C6) and codec failures (C7) *)

Section Skips.

Context (sharp : Sharp) (widths : list Z) (formats : list Format).
Context (qWebp qAvif : JS.number).

Local Abbreviation iter := (batch_iteration sharp widths formats qWebp qAvif).




Lemma iteration_codec_throw file meta origW w f :
  metadata sharp (buffer file) = Return meta ->
  meta_width meta = Some origW ->
  w ∈ feasible origW widths -> f ∈ formats ->
  ¬ resolves (toBuffer sharp (buffer file) w f (quality_of qWebp qAvif f)) ->
  (iter file).1 = None.
Proof.
  unfold batch_iteration. intros -> -> Hw Hf Hth.
  destruct (origW =? 0); [reflexivity|].
  destruct (generate_throw sharp file formats qWebp qAvif (baseName_batch file)
              (feasible origW widths) [CallMetadata] w f Hw Hf Hth)
    as (e & h & ->).
  by destruct (feasible origW widths).
Qed.

(** A turn that is not skipped adds at least one output. *)
Lemma iteration_Some_nonempty file outs doc :
  formats <> [] -> (iter file).1 = Some (outs, doc) -> outs <> [].
Proof.
  intros Hfs. unfold batch_iteration.
  destruct (metadata sharp (buffer file)) as [meta|]; [|done].
  destruct (meta_width meta) as [origW|]; [|done].
  destruct (origW =? 0); [done|].
  destruct (feasible origW widths) as [|w ws] eqn:E; [done|].
  destruct (generate _ _ _ _ _ _ _ _) as [[u|e] h] eqn:G; [|done].
  simpl. intros [= <- _].
  by apply generate_nonempty in G.
Qed.

End Skips.

(** C7. In either mode, when the codec rejects one (width, format) pair
    among the feasible widths and the requested formats of an image, that
    image yields no output at all: the single-image request is answered
    with the encoding-failure error instead of an archive, and in a batch
    the image is skipped, the outputs of the batch being those of the
    same batch without it. *)
Theorem codec_failure_all_or_nothing (sharp : Sharp) (file : File)
    (body : gmap string string) (meta : Metadata) (origW w : Z) (f : Format) :
  metadata sharp (buffer file) = Return meta ->
  meta_width meta = Some origW ->
  w ∈ feasible origW (resolve_widths body) ->
  f ∈ resolve_formats body ->
  ¬ resolves (toBuffer sharp (buffer file) w f
                (quality_of (qWebp body) (qAvif body) f)) ->
  (exists e cs,
     process sharp {| req_file := Some file; req_body := body |}
     = (EncodingFailure e, cs))
  ∧ (batch_iteration sharp (resolve_widths body) (resolve_formats body)
       (qWebp body) (qAvif body) file).1 = None
  ∧ (forall before after,
       allOutputs (batch_loop sharp (resolve_widths body) (resolve_formats body)
                     (qWebp body) (qAvif body) (before ++ file :: after))
       = allOutputs (batch_loop sharp (resolve_widths body) (resolve_formats body)
                       (qWebp body) (qAvif body) (before ++ after))).
Proof.
  intros Hm Hw Hin Hf Hth.
  assert (Hskip : (batch_iteration sharp (resolve_widths body) (resolve_formats body)
                     (qWebp body) (qAvif body) file).1 = None)
    by (eapply iteration_codec_throw; eauto).
  split; [|split; [exact Hskip|]].
  - unfold process. simpl. rewrite Hm, Hw.
    assert (Hpos : 0 < origW).
    { apply feasible_spec in Hin as [Hin Hle].
      apply resolve_widths_positive in Hin. lia. }
    destruct (Z.eqb_spec origW 0) as [->|_]; [lia|].
    destruct (generate_throw sharp file (resolve_formats body) (qWebp body)
                (qAvif body) (baseName_single body file)
                (feasible origW (resolve_widths body)) [CallMetadata] w f
                Hin Hf Hth) as (e & h & ->).
    destruct (feasible origW (resolve_widths body)); [by apply elem_of_nil in Hin|].
    eauto.
  - intros before after. rewrite !batch_loop_spec. simpl.
    rewrite !bind_app, bind_cons, Hskip. reflexivity.
Qed.

Lemma codec_failure_all_or_nothing_witness :
  (exists e cs,
     process (sample_sharp 1600 [(768, avif)])
       {| req_file := Some photo; req_body := {[ "formats" := "webp,avif" ]} |}
     = (EncodingFailure e, cs))
  ∧ (batch_iteration (sample_sharp 1600 [(768, avif)])
       (resolve_widths {[ "formats" := "webp,avif" ]})
       (resolve_formats {[ "formats" := "webp,avif" ]})
       (qWebp {[ "formats" := "webp,avif" ]})
       (qAvif {[ "formats" := "webp,avif" ]}) photo).1 = None.
Proof.
  destruct (codec_failure_all_or_nothing (sample_sharp 1600 [(768, avif)]) photo
              {[ "formats" := "webp,avif" ]} {| meta_width := Some 1600 |}
              1600 768 avif) as (H1 & H2 & _).
  - reflexivity.
  - reflexivity.
  - replace (feasible 1600 (resolve_widths {[ "formats" := "webp,avif" ]}))
      with [480; 768; 1200] by (by vm_compute).
    right. left.
  - replace (resolve_formats {[ "formats" := "webp,avif" ]}) with [webp; avif]
      by (by vm_compute).
    right. left.
  - intros H. vm_compute in H. exact H.
  - split; [exact H1 | exact H2].
Defined.

(** The encodings made before the rejected pair are thrown away with it:
    the codec was called for 480 in both formats and for 768 in webp, and
    the answer carries no file. *)
Example partial_outputs_are_dropped :
  process (sample_sharp 1600 [(768, avif)])
    {| req_file := Some photo; req_body := {[ "formats" := "webp,avif" ]} |}
  = (EncodingFailure "Error: encoder failed",
     [CallMetadata; CallToBuffer 480 webp (JS.Fin 82);
      CallToBuffer 480 avif (JS.Fin 55); CallToBuffer 768 webp (JS.Fin 82);
      CallToBuffer 768 avif (JS.Fin 55)]).
Proof. by vm_compute. Qed.

(** ** Feasible widths and outputs (C8) *)

(** Widths 480, 768, 1200 in webp for a 1600 pixel wide image: three
    outputs, named after the base name, in ascending order of width. *)
Example three_webp_outputs :
  archive_names
    (process (sample_sharp 1600 [])
       {| req_file := Some photo; req_body := {[ "widths" := "1200,480,768" ]} |}).1
  = ["photo-480.webp"; "photo-768.webp"; "photo-1200.webp"; "snippet.html"].
Proof. by vm_compute. Qed.

(** C8. The feasible widths are exactly the resolved widths that do not
    exceed the intrinsic width, kept in their ascending order. When the
    generation completes, every output has a feasible width, a requested
    format and the file name made of the base name, its width and its
    format; and for a valid configuration (resolved widths without
    duplicates) there is exactly one output for each feasible width and
    requested format. *)
Theorem outputs_match_feasible_widths (sharp : Sharp) (file : File)
    (body : gmap string string) (baseName : string) (origW : Z)
    (log : list Call) (u : unit) (h : Heap) :
  let widths := resolve_widths body in
  let formats := resolve_formats body in
  let finalWidths := feasible origW widths in
  generate sharp file formats (qWebp body) (qAvif body) baseName finalWidths log
  = (Return u, h) ->
  (forall w, w ∈ finalWidths ↔ w ∈ widths ∧ w <= origW)
  ∧ finalWidths `sublist_of` widths
  ∧ StronglySorted Z.le finalWidths
  ∧ (forall o, o ∈ outputs h ->
       width o ∈ finalWidths ∧ fmt o ∈ formats
       ∧ name o = fileName baseName (width o) (fmt o))
  ∧ (NoDup widths ->
     forall w f, w ∈ finalWidths -> f ∈ formats ->
       count_outputs w f (outputs h) = 1%nat).
Proof.
  intros widths formats finalWidths (HF & Ho & _ & _)%generate_return.
  split; [intros w; apply feasible_spec|].
  split; [apply sublist_filter|].
  split; [apply feasible_sorted, resolve_widths_sorted|].
  rewrite Ho. split.
  - intros o (p & Hp & Hout)%list_elem_of_omap.
    apply pair_output_Some in Hout as (Hn & Hfmt & Hwd).
    destruct p as [w f]. simpl in *. rewrite Hn, Hfmt, Hwd.
    apply elem_of_pairs in Hp as [? ?]. auto.
  - intros Hnd w f Hw Hf. rewrite count_outputs_pairs by done.
    apply count_singleton.
    + apply NoDup_pairs, feasible_NoDup, Hnd.
    + apply elem_of_pairs. auto.
Qed.

Lemma outputs_match_feasible_widths_witness :
  let h := (generate (sample_sharp 1000 []) photo
              (resolve_formats {[ "formats" := "webp,avif" ]})
              (qWebp {[ "formats" := "webp,avif" ]})
              (qAvif {[ "formats" := "webp,avif" ]}) "photo"
              (feasible 1000 (resolve_widths {[ "formats" := "webp,avif" ]}))
              [CallMetadata]).2 in
  feasible 1000 (resolve_widths {[ "formats" := "webp,avif" ]}) = [480; 768]
  ∧ count_outputs 768 avif (outputs h) = 1%nat.
Proof.
  intros h. split; [by vm_compute|].
  destruct (outputs_match_feasible_widths (sample_sharp 1000 []) photo
              {[ "formats" := "webp,avif" ]} "photo" 1000 [CallMetadata] tt h)
    as (_ & _ & _ & _ & H).
  - by vm_compute.
  - apply H.
    + replace (resolve_widths {[ "formats" := "webp,avif" ]})
        with [480; 768; 1200] by (by vm_compute).
      repeat (constructor; [rewrite ?elem_of_cons, ?elem_of_nil; lia|]).
      constructor.
    + replace (feasible 1000 (resolve_widths {[ "formats" := "webp,avif" ]}))
        with [480; 768] by (by vm_compute).
      right. left.
    + replace (resolve_formats {[ "formats" := "webp,avif" ]})
        with [webp; avif] by (by vm_compute).
      right. left.
Defined.

(** The generation completes whenever the codec resolves on every pair. *)
Lemma generate_completes (sharp : Sharp) (file : File) (formats : list Format)
    (qW qA : JS.number) (baseName : string) (ws : list Z) (log : list Call) :
  (forall w f, w ∈ ws -> f ∈ formats ->
     resolves (toBuffer sharp (buffer file) w f (quality_of qW qA f))) ->
  exists h, generate sharp file formats qW qA baseName ws log = (Return tt, h).
Proof.
  intros H. apply generate_resolves, Forall_forall.
  intros [w f] [Hw Hf]%elem_of_pairs. by apply H.
Qed.

(** ** Markup (C9) *)

Lemma two_formats (formats : list Format) :
  webp ∈ formats -> avif ∈ formats -> (1 <? length formats)%nat = true.
Proof.
  intros Hw Ha. apply Nat.ltb_lt.
  destruct formats as [|f [|g fs]]; simpl; [by apply elem_of_nil in Hw| |lia].
  apply list_elem_of_singleton in Hw, Ha. congruence.
Qed.

(** C9, as the code has it: the container is emitted as soon as the
    format list has two entries, also when they name the same format.
    For [formats = webp,webp] one format is requested and the picture
    snippet is a [<picture>] element, not the [<img>] snippet. *)
Lemma one_format_named_twice_gets_picture :
  resolve_formats {[ "formats" := "webp,webp" ]} = [webp; webp]
  ∧ let formats := resolve_formats {[ "formats" := "webp,webp" ]} in
    let srcsets := {| srcsets_webp := srcset_of "photo" webp [480];
                      srcsets_avif := [] |} in
    pictureSnippet formats "photo" [480] "100vw" srcsets
    <> imgSnippet formats "photo" [480] "100vw" srcsets
    ∧ pictureSnippet formats "photo" [480] "100vw" srcsets
      = "<picture>" +:+ nl +:+
        "  " +:+ nl +:+
        "  <source type=" +:+ dq +:+ "image/webp" +:+ dq +:+
          " srcset=" +:+ dq +:+ "photo-480.webp 480w" +:+ dq +:+
          " sizes=" +:+ dq +:+ "100vw" +:+ dq +:+ ">" +:+ nl +:+
        "  <img src=" +:+ dq +:+ "photo-480.webp" +:+ dq +:+
          " alt=" +:+ dq +:+ dq +:+ " loading=" +:+ dq +:+ "lazy" +:+ dq +:+
          " decoding=" +:+ dq +:+ "async" +:+ dq +:+ ">" +:+ nl +:+
        "</picture>".
Proof. split; [by vm_compute|]. split; by vm_compute. Qed.

(** C9, amended. For every request whose resolved format list has exactly
    one entry, the picture snippet equals the image snippet (a format
    named twice makes two entries and gets a [<picture>] element). For
    every request whose formats include both webp and avif, once the
    generation over the n feasible widths completes, the picture snippet
    is a [<picture>] element holding the avif source, then the webp
    source, each with n [srcset] entries in the ascending order of the
    feasible widths, then a fallback [<img>] whose [src] is the webp
    output of the smallest feasible width. *)
Theorem picture_markup (sharp : Sharp) (file : File)
    (body : gmap string string) (baseName sizesIn : string) (origW : Z)
    (log : list Call) (u : unit) (h : Heap) :
  let widths := resolve_widths body in
  let formats := resolve_formats body in
  let finalWidths := feasible origW widths in
  let srcsets := collect_srcsets (outputs h) in
  generate sharp file formats (qWebp body) (qAvif body) baseName finalWidths log
  = (Return u, h) ->
  (length formats = 1%nat ->
   pictureSnippet formats baseName finalWidths sizesIn srcsets
   = imgSnippet formats baseName finalWidths sizesIn srcsets)
  ∧ (webp ∈ formats -> avif ∈ formats ->
     forall w0, finalWidths !! 0%nat = Some w0 ->
       pictureSnippet formats baseName finalWidths sizesIn srcsets
       = "<picture>" +:+ nl +:+
         "  <source type=" +:+ dq +:+ "image/avif" +:+ dq +:+
           " srcset=" +:+ dq +:+ JS.join ", " (srcset_of baseName avif finalWidths)
           +:+ dq +:+ " sizes=" +:+ dq +:+ sizesIn +:+ dq +:+ ">" +:+ nl +:+
         "  <source type=" +:+ dq +:+ "image/webp" +:+ dq +:+
           " srcset=" +:+ dq +:+ JS.join ", " (srcset_of baseName webp finalWidths)
           +:+ dq +:+ " sizes=" +:+ dq +:+ sizesIn +:+ dq +:+ ">" +:+ nl +:+
         "  <img src=" +:+ dq +:+ fileName baseName w0 webp +:+ dq +:+
           " alt=" +:+ dq +:+ dq +:+ " loading=" +:+ dq +:+ "lazy" +:+ dq +:+
           " decoding=" +:+ dq +:+ "async" +:+ dq +:+ ">" +:+ nl +:+
         "</picture>"
       ∧ length (srcset_of baseName avif finalWidths) = length finalWidths
       ∧ length (srcset_of baseName webp finalWidths) = length finalWidths
       ∧ StronglySorted Z.le finalWidths
       ∧ (w0 ∈ finalWidths ∧ forall w, w ∈ finalWidths -> w0 <= w)
       ∧ (exists o, o ∈ outputs h ∧ width o = w0 ∧ fmt o = webp
                    ∧ name o = fileName baseName w0 webp)).
Proof.
  intros widths formats finalWidths srcsets Hgen.
  pose proof Hgen as (HF & Ho & _ & _)%generate_return.
  split.
  - intros Hlen. unfold pictureSnippet. by rewrite Hlen.
  - intros Hwebp Havif w0 Hw0.
    assert (Hsorted : StronglySorted Z.le finalWidths)
      by apply feasible_sorted, resolve_widths_sorted.
    split; [|split; [apply length_fmap|split; [apply length_fmap|]]].
    + unfold pictureSnippet, source_tag, fallback_img, baseSrc, srcsets.
      rewrite two_formats by done.
      rewrite collect_srcsets_spec, Ho. simpl.
      rewrite !(srcset_of_outputs _ _ _ _ _ _ _ _ HF).
      unfold includes. rewrite !bool_decide_eq_true_2 by done.
      rewrite Hw0.
      destruct finalWidths as [|w ws] eqn:E; [discriminate|].
      simpl. unfold fileName. rewrite !append_assoc. reflexivity.
    + split; [exact Hsorted|]. split; [by apply sorted_head_least|].
      assert (Hin : (w0, webp) ∈ pairs formats finalWidths).
      { apply elem_of_pairs. split; [|done].
        apply list_elem_of_lookup. eauto. }
      rewrite Forall_forall in HF. pose proof (HF _ Hin) as Hres.
      destruct (pair_output_resolves sharp file (qWebp body) (qAvif body)
                  baseName _ Hres) as [b Hb].
      exists {| name := fileName baseName w0 webp; fmt := webp;
                width := w0; buf := b |}.
      split; [|done]. rewrite Ho. apply list_elem_of_omap. eauto.
Qed.

Lemma picture_markup_witness :
  let body : gmap string string := {[ "formats" := "avif, webp" ]} in
  let finalWidths := feasible 1000 (resolve_widths body) in
  let h := (generate (sample_sharp 1000 []) photo (resolve_formats body)
              (qWebp body) (qAvif body) "photo" finalWidths [CallMetadata]).2 in
  finalWidths = [480; 768]
  ∧ pictureSnippet (resolve_formats body) "photo" finalWidths "100vw"
      (collect_srcsets (outputs h))
    = "<picture>" +:+ nl +:+
      "  <source type=" +:+ dq +:+ "image/avif" +:+ dq +:+
        " srcset=" +:+ dq +:+ JS.join ", " (srcset_of "photo" avif finalWidths)
        +:+ dq +:+ " sizes=" +:+ dq +:+ "100vw" +:+ dq +:+ ">" +:+ nl +:+
      "  <source type=" +:+ dq +:+ "image/webp" +:+ dq +:+
        " srcset=" +:+ dq +:+ JS.join ", " (srcset_of "photo" webp finalWidths)
        +:+ dq +:+ " sizes=" +:+ dq +:+ "100vw" +:+ dq +:+ ">" +:+ nl +:+
      "  <img src=" +:+ dq +:+ fileName "photo" 480 webp +:+ dq +:+
        " alt=" +:+ dq +:+ dq +:+ " loading=" +:+ dq +:+ "lazy" +:+ dq +:+
        " decoding=" +:+ dq +:+ "async" +:+ dq +:+ ">" +:+ nl +:+
      "</picture>".
Proof.
  intros body finalWidths h. split; [by vm_compute|].
  destruct (picture_markup (sample_sharp 1000 []) photo body "photo" "100vw"
              1000 [CallMetadata] tt h) as [_ H].
  - by vm_compute.
  - destruct (H ltac:(by vm_compute; right; left)
                ltac:(by vm_compute; left) 480 ltac:(by vm_compute))
      as [Heq _].
    exact Heq.
Defined.

(** ** The header of the combined document (C10) *)

(** C10. Whenever a batch request is answered with an archive, the last
    entry of the archive is [snippets.html] and its header states the
    number of uploaded files, the skipped ones included, whatever the
    number of images that were processed. *)
Theorem batch_header_counts_uploaded_files (sharp : Sharp) (req : BatchRequest)
    (filename : string) (entries : list (string * Content)) (cs : list Call) :
  process_batch sharp req = (Zip filename entries, cs) ->
  exists rest,
    last entries
    = Some ("snippets.html",
            Text ("<!-- WebReady Batch Output -->" +:+ nl +:+
                  "<!-- " +:+ show (Z.of_nat (length (req_files req))) +:+
                  " images processed -->" +:+ nl +:+ rest)).
Proof.
  unfold process_batch.
  destruct (req_files req) as [|file files] eqn:E; [discriminate|].
  destruct (allOutputs _) as [|o os]; [discriminate|].
  intros [= _ <- _]. rewrite app_comm_cons, last_snoc. unfold combinedSnippets.
  eexists. reflexivity.
Qed.

Lemma batch_header_counts_uploaded_files_witness :
  let req := {| req_files := [photo; corrupt; banner]; batch_body := ∅ |} in
  let r := process_batch (sample_sharp 500 []) req in
  archive_names r.1 = ["photo-480.webp"; "banner-480.webp"; "snippets.html"]
  ∧ exists rest,
      last (archive_of r.1)
      = Some ("snippets.html",
              Text ("<!-- WebReady Batch Output -->" +:+ nl +:+
                    "<!-- 3 images processed -->" +:+ nl +:+ rest)).
Proof.
  intros req r. split; [by vm_compute|].
  apply (batch_header_counts_uploaded_files (sample_sharp 500 []) req
           "webready-batch.zip" (archive_of r.1) r.2).
  by vm_compute.
Defined.

(** * Further properties of the code *)

(** ** Round trips of the configuration *)

Lemma width_token_no_comma (t : string * Z * string) :
  blank t.1.1 = true -> blank t.2 = true -> 0 < t.1.2 < 2 ^ 53 ->
  all_chars not_comma (width_token t) = true.
Proof.
  intros Ha Hb Hw. unfold width_token, blank in *. rewrite !all_chars_app.
  assert (Hd : all_chars JS.is_digit (show t.1.2) = true)
    by (apply show_digits; lia).
  rewrite (all_chars_impl _ _ _ space_not_comma Ha).
  rewrite (all_chars_impl _ _ _ space_not_comma Hb).
  rewrite (all_chars_impl _ _ _ digit_not_comma Hd).
  reflexivity.
Qed.

Lemma width_token_parses (t : string * Z * string) :
  blank t.1.1 = true -> blank t.2 = true -> 0 < t.1.2 < 2 ^ 53 ->
  finite_positive (JS.parseInt (JS.trim (width_token t))) = Some t.1.2.
Proof.
  intros Ha Hb Hw. unfold width_token, blank in *.
  rewrite trim_padded; [|done| |done].
  - rewrite <- (append_nil_r (show _)), parseInt_show_exact by (done || lia).
    apply finite_positive_Some. split; [done|lia].
  - apply (all_chars_impl _ _ _ digit_no_space), show_digits. lia.
Qed.

(** X1. A comma-separated list of positive integers, each with optional
    white space around it, resolves to those integers in ascending
    order. *)
Theorem widths_round_trip (body : gmap string string)
    (items : list (string * Z * string)) :
  Forall (fun t => blank t.1.1 = true ∧ blank t.2 = true ∧ 0 < t.1.2 < 2 ^ 53)
    items ->
  body !! "widths" = Some (JS.join "," (width_token <$> items)) ->
  resolve_widths body = sort_ascending ((fun t => t.1.2) <$> items)
  ∧ resolve_widths body ≡ₚ (fun t => t.1.2) <$> items.
Proof.
  intros HF Hbody.
  assert (E : resolve_widths body = sort_ascending ((fun t => t.1.2) <$> items)).
  { rewrite (resolve_widths_present _ _ Hbody). f_equal.
    destruct items as [|t items]; [reflexivity|].
    rewrite split_join.
    - clear Hbody. induction HF as [|x xs (Ha & Hb & Hw) _ IH]; [reflexivity|].
      rewrite !fmap_cons. cbn [omap list_omap].
      rewrite width_token_parses by done. by rewrite IH.
    - done.
    - apply Forall_fmap. eapply Forall_impl; [exact HF|].
      intros x (Ha & Hb & Hw). by apply width_token_no_comma. }
  split; [exact E|]. rewrite E. apply merge_sort_Permutation.
Qed.

Lemma widths_round_trip_witness :
  resolve_widths {[ "widths" := JS.join "," (width_token <$> [(" ", 768, ""); ("", 480, " ")]) ]}
  = sort_ascending [768; 480]
  ∧ sort_ascending [768; 480] = [480; 768]
  ∧ JS.join "," (width_token <$> [(" ", 768, ""); ("", 480, " ")]) = " 768,480 ".
Proof.
  split; [|split; by vm_compute].
  apply (widths_round_trip _ [(" ", 768, ""); ("", 480, " ")]).
  - repeat constructor; simpl; lia.
  - reflexivity.
Defined.

Lemma lower_space (c : ascii) : JS.is_space (JS.lower c) = JS.is_space c.
Proof.
  destruct c as [b0 b1 b2 b3 b4 b5 b6 b7].
  by destruct b0, b1, b2, b3, b4, b5, b6, b7.
Qed.

Lemma lower_comma (c : ascii) : not_comma (JS.lower c) = not_comma c.
Proof.
  destruct c as [b0 b1 b2 b3 b4 b5 b6 b7].
  by destruct b0, b1, b2, b3, b4, b5, b6, b7.
Qed.

Lemma all_chars_toLowerCase (P : ascii -> bool) (s : string) :
  (forall c, P (JS.lower c) = P c) ->
  all_chars P (JS.toLowerCase s) = all_chars P s.
Proof.
  intros HP. induction s as [|c s IH]; [done|].
  cbn [JS.toLowerCase all_chars]. by rewrite HP, IH.
Qed.

(** A spelling of a format name holds neither white space nor a comma. *)
Lemma spelling_plain (n : string) (f : Format) :
  JS.toLowerCase n = format_name f ->
  all_chars (fun c => negb (JS.is_space c)) n = true
  ∧ all_chars not_comma n = true.
Proof.
  intros H. split.
  - rewrite <- (all_chars_toLowerCase (fun c => negb (JS.is_space c)))
      by (intros c; by rewrite lower_space).
    rewrite H. by destruct f.
  - rewrite <- (all_chars_toLowerCase not_comma) by apply lower_comma.
    rewrite H. by destruct f.
Qed.

Lemma known_format_name (f : Format) : known_format (format_name f) = Some f.
Proof. by destruct f. Qed.

(** X2. A comma-separated list of format names, in any letter case and
    with optional white space around each, resolves to those formats in
    the order given. *)
Theorem formats_round_trip (body : gmap string string)
    (items : list (string * string * string)) (fs : list Format) :
  fs <> [] ->
  Forall2 (fun t f => blank t.1.1 = true ∧ blank t.2 = true
                      ∧ JS.toLowerCase t.1.2 = format_name f) items fs ->
  body !! "formats" = Some (JS.join "," (format_token <$> items)) ->
  resolve_formats body = fs.
Proof.
  intros Hne HF Hbody. unfold resolve_formats. rewrite Hbody. simpl default.
  assert (Hitems : items <> []) by (intros ->; by inversion HF).
  rewrite split_join; [|by destruct items|].
  - assert (E : omap known_format
                  ((fun s => JS.toLowerCase (JS.trim s)) <$> (format_token <$> items))
                = fs).
    { clear Hne Hitems Hbody.
      induction HF as [|t f ts fs' (Ha & Hb & Hn) _ IH]; [reflexivity|].
      rewrite !fmap_cons. cbn [omap list_omap]. unfold format_token at 1.
      destruct (spelling_plain _ _ Hn) as [Hsp _].
      rewrite trim_padded by done. rewrite Hn, known_format_name. by rewrite IH. }
    rewrite E. by destruct fs.
  - apply Forall_fmap. clear Hne Hitems Hbody.
    induction HF as [|t f ts fs' (Ha & Hb & Hn) _ IH]; constructor; [|done].
    change (all_chars not_comma (format_token t) = true).
    unfold format_token, blank in *. rewrite !all_chars_app.
    destruct (spelling_plain _ _ Hn) as [_ Hc]. rewrite Hc.
    rewrite (all_chars_impl _ _ _ space_not_comma Ha).
    by rewrite (all_chars_impl _ _ _ space_not_comma Hb).
Qed.

Lemma formats_round_trip_witness :
  resolve_formats {[ "formats" := " AVIF, WebP" ]} = [avif; webp].
Proof.
  apply (formats_round_trip _ [(" ", "AVIF", ""); (" ", "WebP", "")]).
  - discriminate.
  - repeat constructor.
  - reflexivity.
Defined.

Lemma length_omap_le {A B} (f : A -> option B) (l : list A) :
  (length (omap f l) <= length l)%nat.
Proof.
  induction l as [|x l IH]; [done|]. cbn [omap list_omap].
  destruct (f x); simpl; lia.
Qed.

(** X3. The resolved widths are exactly the positive finite values that
    the tokens of the field parse to; there are never more of them than
    tokens. *)
Theorem resolved_widths_come_from_tokens (body : gmap string string) (w : Z) :
  let raw := default (JS.join "," (show <$> defaultBreakpoints)) (body !! "widths") in
  (w ∈ resolve_widths body ↔
   0 < w ∧ exists t, t ∈ JS.split "," raw ∧ JS.parseInt (JS.trim t) = JS.Fin w)
  ∧ (length (resolve_widths body) <= length (JS.split "," raw))%nat.
Proof.
  intros raw. unfold resolve_widths, sort_ascending. fold raw.
  rewrite merge_sort_Permutation. split.
  - rewrite list_elem_of_omap. split.
    + intros (n & Hn & Hfp). apply finite_positive_Some in Hfp as [-> Hpos].
      apply list_elem_of_fmap in Hn as (t & Ht & Hin). eauto.
    + intros (Hpos & t & Hin & Hp). exists (JS.Fin w). split.
      * apply list_elem_of_fmap. eauto.
      * by apply finite_positive_Some.
  - etransitivity; [apply length_omap_le|]. by rewrite length_fmap.
Qed.

(** ** Quality *)

(** X4. Whatever the field holds, a resolved quality is an integer
    between 1 and 100 or [NaN], and it is [NaN] exactly when the field
    (or, without it, the default) does not start with a number. *)
Theorem resolved_quality_range (field dflt : string) (body : gmap string string) :
  let q := resolve_quality field dflt body in
  (q = JS.NaN ∨ exists n, q = JS.Fin n ∧ 1 <= n <= 100)
  ∧ (q = JS.NaN ↔ JS.parseInt (default dflt (body !! field)) = JS.NaN).
Proof.
  unfold resolve_quality.
  destruct (JS.parseInt (default dflt (body !! field))) as [|z| |]; simpl.
  - split; [by left|done].
  - split; [right; eexists; split; [reflexivity|lia]|]. split; discriminate.
  - split; [right; eexists; split; [reflexivity|lia]|]. split; discriminate.
  - split; [right; eexists; split; [reflexivity|lia]|]. split; discriminate.
Qed.

(** X5. A quality written as an integer, with anything that is no digit
    after it, resolves to that integer clamped into [1, 100]. *)
Theorem quality_of_integer (field dflt : string) (body : gmap string string)
    (z : Z) (t : string) :
  Z.abs z < 2 ^ 53 -> ends_number t = true ->
  body !! field = Some (show z +:+ t) ->
  resolve_quality field dflt body = JS.Fin (Z.min 100 (Z.max 1 z)).
Proof.
  intros Hz Ht Hbody. apply (resolve_quality_numeric _ _ _ _ _ Hbody).
  by apply parseInt_show_exact.
Qed.

Lemma quality_of_integer_witness :
  qWebp {[ "quality_webp" := show (-5) +:+ "%" ]} = JS.Fin 1
  ∧ show (-5) +:+ "%" = "-5%".
Proof.
  split; [|reflexivity].
  apply (quality_of_integer "quality_webp" "82" _ (-5) "%"); [by vm_compute|done|].
  reflexivity.
Defined.

(** ** Base names *)

(** X6. Stripping removes at most one trailing extension: the result is
    the name itself, or the name is the result followed by a dot and one
    or more characters none of which is a dot. *)
Theorem strip_extension_cases (s : string) :
  strip_extension s = s
  ∨ exists e, e <> "" ∧ no_dot e = true ∧ s = strip_extension s +:+ "." +:+ e.
Proof.
  induction s as [|c s IH]; [by left|]. cbn [strip_extension].
  destruct (Ascii.eqb_spec c ".") as [->|Hc]; simpl.
  - destruct (String.eqb_spec s "") as [->|Hs]; simpl; [by left|].
    destruct (no_dot s) eqn:Hnd.
    + right. exists s. auto.
    + destruct IH as [->|(e & He & Hnd' & Hs')]; [by left|].
      right. exists e. split; [done|]. split; [done|].
      rewrite append_cons. by rewrite <- Hs'.
  - destruct IH as [->|(e & He & Hnd' & Hs')]; [by left|].
    right. exists e. split; [done|]. split; [done|].
    rewrite append_cons. by rewrite <- Hs'.
Qed.

(** ** The generated [sizes] attribute *)

Lemma sorted_last_greatest (ws : list Z) (wN : Z) :
  StronglySorted Z.le ws -> last ws = Some wN ->
  wN ∈ ws ∧ forall w, w ∈ ws -> w <= wN.
Proof.
  intros Hs Hl. split; [by apply last_Some_elem_of|].
  apply last_Some in Hl as [l' ->].
  apply StronglySorted_app in Hs as (Hall & _ & _).
  intros w [Hw|Hw]%elem_of_app.
  - apply Hall; [done|left].
  - apply list_elem_of_singleton in Hw. lia.
Qed.

(** X7. Over a non-empty ascending list of widths, the generated [sizes]
    attribute names the smallest width, then a middle width, then the
    largest. The middle width is the second entry of the list when that
    entry is not 0, and the smallest width again when the list has one
    entry only or its second entry is 0, which [||] takes for absent.
    Over positive widths, the only ones a request resolves to, it is the
    second smallest width, or the smallest when there is only one. *)
Theorem default_sizes_sorted (ws : list Z) :
  StronglySorted Z.le ws -> ws <> [] ->
  exists lo mid hi,
    default_sizes ws
    = "(max-width: " +:+ show lo +:+ "px) 100vw, (max-width: " +:+ show mid
      +:+ "px) 50vw, " +:+ show hi +:+ "px"
    ∧ (lo ∈ ws ∧ forall w, w ∈ ws -> lo <= w)
    ∧ (hi ∈ ws ∧ forall w, w ∈ ws -> w <= hi)
    ∧ ((ws !! 1%nat = Some mid ∧ mid <> 0)
       ∨ ((length ws = 1%nat ∨ ws !! 1%nat = Some 0) ∧ mid = lo))
    ∧ (Forall (fun w => 0 < w) ws ->
       ws !! 1%nat = Some mid ∨ (length ws = 1%nat ∧ mid = lo)).
Proof.
  intros Hs Hne. destruct ws as [|lo ws]; [done|].
  destruct (last (lo :: ws)) as [hi|] eqn:Hl;
    [|by apply last_None in Hl].
  exists lo, (default lo (or_else (ws !! 0%nat) (Some lo))), hi.
  split; [|split; [|split; [|split]]].
  - unfold default_sizes. rewrite Hl. cbn [lookup list_lookup].
    by destruct (or_else (ws !! 0%nat) (Some lo)) eqn:E;
      [|destruct ws as [|m ws]; simpl in E; [|destruct (m =? 0)]].
  - by apply sorted_head_least.
  - by apply sorted_last_greatest.
  - destruct ws as [|m ws]; [by right; split; [left|]|]. simpl.
    destruct (Z.eqb_spec m 0) as [->|Hm]; [by right; split; [right|]|by left].
  - intros Hpos. destruct ws as [|m ws]; [by right|]. left. simpl.
    apply Forall_cons in Hpos as [_ [Hm _]%Forall_cons].
    by destruct (Z.eqb_spec m 0) as [->|_]; [lia|].
Qed.

Lemma default_sizes_sorted_witness :
  exists lo mid hi,
    default_sizes [0; 0; 1200]
    = "(max-width: " +:+ show lo +:+ "px) 100vw, (max-width: " +:+ show mid
      +:+ "px) 50vw, " +:+ show hi +:+ "px"
    ∧ (lo ∈ [0; 0; 1200] ∧ forall w, w ∈ [0; 0; 1200] -> lo <= w)
    ∧ (hi ∈ [0; 0; 1200] ∧ forall w, w ∈ [0; 0; 1200] -> w <= hi)
    ∧ (([0; 0; 1200] !! 1%nat = Some mid ∧ mid <> 0)
       ∨ ((length [0; 0; 1200] = 1%nat ∨ [0; 0; 1200] !! 1%nat = Some 0)
          ∧ mid = lo))
    ∧ (Forall (fun w => 0 < w) [0; 0; 1200] ->
       [0; 0; 1200] !! 1%nat = Some mid
       ∨ (length [0; 0; 1200] = 1%nat ∧ mid = lo)).
Proof.
  apply default_sizes_sorted.
  - repeat constructor; lia.
  - done.
Defined.

(** ** Runs of the encoding loop *)

Section Runs.

Context (sharp : Sharp) (file : File) (formats : list Format).
Context (qWebp qAvif : JS.number) (baseName : string).

Local Abbreviation step := (encode_pair sharp file qWebp qAvif baseName).
Local Abbreviation result := (pair_result sharp file qWebp qAvif).
Local Abbreviation output := (pair_output sharp file qWebp qAvif baseName).
Local Abbreviation call := (pair_call qWebp qAvif).
Local Abbreviation gen := (generate sharp file formats qWebp qAvif baseName).

(** The loop stops at the first pair the codec rejects: the pairs before
    it were encoded and pushed, the pairs after it are never sent. *)
Lemma for_of_pairs_stops pre p post e h0 :
  Forall (fun q => resolves (result q)) pre ->
  result p = Throw e ->
  for_of (pre ++ p :: post) step h0
  = (Throw e, {| outputs := outputs h0 ++ omap output pre;
                 calls := calls h0 ++ (call <$> pre ++ [p]) |}).
Proof.
  intros HF Hp. revert h0. induction HF as [|q pre Hq _ IH]; intros h0.
  - cbn [app for_of]. unfold bind. rewrite encode_pair_step, Hp.
    simpl. by rewrite app_nil_r.
  - cbn [app for_of]. unfold bind. rewrite encode_pair_step.
    destruct (pair_output_resolves sharp file qWebp qAvif baseName q Hq) as [b Hb].
    cbn [omap list_omap]. rewrite Hb.
    destruct (result q) as [b'|]; [|done].
    rewrite IH. simpl. by rewrite <- !app_assoc.
Qed.

(** Whatever the outcome, the codec was sent a prefix of the pairs. *)
Lemma for_of_pairs_calls ps h0 r h :
  for_of ps step h0 = (r, h) ->
  exists n, calls h = calls h0 ++ (call <$> take n ps).
Proof.
  revert h0. induction ps as [|p ps IH]; intros h0.
  - cbn [for_of]. unfold ret. intros [= _ <-]. exists 0%nat.
    by rewrite app_nil_r.
  - cbn [for_of]. unfold bind. rewrite encode_pair_step.
    destruct (result p) as [b|e].
    + intros H. apply IH in H as [n Hn]. exists (S n).
      rewrite Hn. simpl. by rewrite <- app_assoc.
    + intros [= _ <-]. by exists 1%nat.
Qed.

Lemma generate_calls ws log r h :
  gen ws log = (r, h) ->
  forall c, c ∈ calls h ->
    c ∈ log ∨ exists w f, c = CallToBuffer w f (quality_of qWebp qAvif f)
                          ∧ w ∈ ws ∧ f ∈ formats.
Proof.
  unfold generate. rewrite for_of_pairs. intros [n Hn]%for_of_pairs_calls c.
  rewrite Hn. simpl. intros [Hc|Hc]%elem_of_app; [by left|right].
  apply list_elem_of_fmap in Hc as ([w f] & -> & Hin).
  apply elem_of_take in Hin as (i & Hin & _).
  apply list_elem_of_lookup_2, elem_of_pairs in Hin as [? ?]. eauto.
Qed.

Lemma generate_stops ws log pre p post e :
  pairs formats ws = pre ++ p :: post ->
  Forall (fun q => resolves (result q)) pre ->
  result p = Throw e ->
  gen ws log = (Throw e, {| outputs := omap output pre;
                            calls := log ++ (call <$> pre ++ [p]) |}).
Proof.
  intros Hps HF Hp. unfold generate. rewrite for_of_pairs, Hps.
  by apply (for_of_pairs_stops pre p post e).
Qed.

Lemma generate_success ws log :
  Forall (fun q => resolves (result q)) (pairs formats ws) ->
  gen ws log = (Return tt, {| outputs := omap output (pairs formats ws);
                              calls := log ++ (call <$> pairs formats ws) |}).
Proof.
  intros HF. destruct (generate_resolves _ _ _ _ _ baseName ws log HF) as [h Hh].
  rewrite Hh. f_equal.
  apply generate_return in Hh as (_ & Ho & _ & Hc).
  destruct h. simpl in *. by rewrite Ho, Hc.
Qed.

End Runs.

(** ** Outcomes of [POST /process] *)

Lemma Forall_pairs_resolve (sharp : Sharp) (file : File) (formats : list Format)
    (qW qA : JS.number) (ws : list Z) :
  Forall (fun p => resolves (pair_result sharp file qW qA p)) (pairs formats ws)
  ↔ forall w f, w ∈ ws -> f ∈ formats ->
      resolves (toBuffer sharp (buffer file) w f (quality_of qW qA f)).
Proof.
  rewrite Forall_forall. split.
  - intros H w f Hw Hf. apply (H (w, f)). apply elem_of_pairs. auto.
  - intros H [w f] [Hw Hf]%elem_of_pairs. by apply H.
Qed.

(** ** The conversion of the fields *)

(** Induction over the values of a body, arrays included. *)
Lemma Field_rect_nested (P : Field -> Prop) :
  (forall s, P (Str s)) ->
  (forall l, Forall (fun x => match x with None => True | Some v => P v end) l ->
             P (Items l)) ->
  (forall m, P (Dict m)) ->
  forall v, P v.
Proof.
  intros HS HI HD. fix IH 1. intros [s|l|m]; [apply HS| |apply HD].
  apply HI. induction l as [|[v|] l IHl]; constructor; auto.
Qed.

(** The conversion returns exactly on the values without object. *)
Lemma Field_toString_printable (v : Field) :
  printable v = true ↔ exists s, Field_toString v = Return s.
Proof.
  induction v as [s|l IH|m] using Field_rect_nested.
  - split; eauto.
  - cbn [printable Field_toString].
    set (elements := fix elements (l : list (option Field)) : Try (list string) :=
           match l with
           | [] => Return []
           | x :: l' =>
               match match x with
                     | None => Return EmptyString
                     | Some v' => Field_toString v'
                     end
               with
               | Throw e => Throw e
               | Return s =>
                   match elements l' with
                   | Throw e => Throw e
                   | Return ss => Return (s :: ss)
                   end
               end
           end).
    assert (H : forallb (fun x => match x with None => true | Some v' => printable v' end) l = true
                ↔ exists ss, elements l = Return ss).
    { induction IH as [|x l Hx _ IHl]; [split; eauto|].
      cbn [forallb]. rewrite andb_true_iff, IHl. cbn [elements].
      destruct x as [v|].
      - rewrite Hx. split.
        + intros [[s ->] [ss ->]]. eauto.
        + destruct (Field_toString v) as [s|e]; [|by intros [? ?]].
          destruct (elements l) as [ss|e]; [|by intros [? ?]]. eauto.
      - split.
        + intros [_ [ss ->]]. eauto.
        + destruct (elements l) as [ss|e]; [|by intros [? ?]]. eauto. }
    rewrite H. split.
    + intros [ss ->]. eauto.
    + destruct (elements l) as [ss|e]; [eauto|by intros [? ?]].
  - split; [done|by intros [? ?]].
Qed.

(** The fields convert exactly when each one that is present does. *)
Lemma read_fields_return (names : list string) (raw : gmap string Field) :
  (exists body, read_fields names raw = Return body)
  ↔ forall k v, k ∈ names -> raw !! k = Some v -> printable v = true.
Proof.
  induction names as [|n names IH]; cbn [read_fields].
  - split; [by intros _ k v ?%elem_of_nil|eauto].
  - split.
    + intros [body Hb] k v Hk Hv.
      destruct (raw !! n) as [vn|] eqn:Hn.
      * destruct (Field_toString vn) as [s|e] eqn:Hs; [|done].
        destruct (read_fields names raw) as [b|e] eqn:Hr; [|done].
        apply elem_of_cons in Hk as [->|Hk].
        -- rewrite Hn in Hv. injection Hv as <-.
           apply Field_toString_printable. eauto.
        -- apply (proj1 IH (ex_intro _ b eq_refl) k v Hk Hv).
      * apply elem_of_cons in Hk as [->|Hk]; [congruence|].
        apply (proj1 IH (ex_intro _ body Hb) k v Hk Hv).
    + intros H.
      assert (Hr : exists b, read_fields names raw = Return b).
      { apply IH. intros k v Hk. apply H. by right. }
      destruct Hr as [b ->].
      destruct (raw !! n) as [vn|] eqn:Hn; [|eauto].
      assert (Hp : printable vn = true) by (apply (H n); [left|done]).
      apply Field_toString_printable in Hp as [s ->]. eauto.
Qed.

(** What a successful conversion holds: the texts of the fields read. *)
Lemma read_fields_lookup (names : list string) (raw : gmap string Field)
    (body : gmap string string) (k : string) :
  read_fields names raw = Return body ->
  body !! k
  = if decide (k ∈ names)
    then raw !! k ≫= fun v =>
           match Field_toString v with Return s => Some s | Throw _ => None end
    else None.
Proof.
  revert body. induction names as [|n names IH]; intros body; cbn [read_fields].
  - intros [= <-]. rewrite lookup_empty.
    by destruct (decide (k ∈ [])) as [?%elem_of_nil|].
  - destruct (raw !! n) as [vn|] eqn:Hn.
    + destruct (Field_toString vn) as [s|e] eqn:Hs; [|done].
      destruct (read_fields names raw) as [b|e] eqn:Hr; [|done].
      intros [= <-]. specialize (IH b eq_refl).
      destruct (decide (k = n)) as [->|Hne].
      * rewrite lookup_insert_eq, Hn. cbn. rewrite Hs.
        by destruct (decide (n ∈ n :: names)) as [|[]]; [|left].
      * rewrite lookup_insert_ne, IH by done.
        destruct (decide (k ∈ names)), (decide (k ∈ n :: names)) as [Hin|Hout];
          try done.
        -- destruct Hout. by right.
        -- by apply elem_of_cons in Hin as [|].
    + intros Hb. rewrite (IH body Hb).
      destruct (decide (k = n)) as [->|Hne].
      * rewrite Hn. by destruct (decide _), (decide _).
      * destruct (decide (k ∈ names)), (decide (k ∈ n :: names)) as [Hin|Hout];
          try done.
        -- destruct Hout. by right.
        -- by apply elem_of_cons in Hin as [|].
Qed.

(** ** The headers of the attachment *)

Lemma setHeader_valid (name value : string) :
  all_chars valid_header_char value = true -> setHeader name value = Return tt.
Proof. unfold setHeader. by intros ->. Qed.

Lemma setHeader_invalid (name value : string) :
  all_chars valid_header_char value = false ->
  exists e, setHeader name value = Throw e.
Proof. unfold setHeader. intros ->. eauto. Qed.

(** The headers are accepted exactly when the file name holds accepted
    characters only. *)
Lemma attachment_headers_valid (filename : string) :
  all_chars valid_header_char filename = true ->
  attachment_headers filename = Return tt.
Proof.
  intros H. unfold attachment_headers.
  rewrite setHeader_valid by reflexivity. apply setHeader_valid.
  rewrite !all_chars_app, H. reflexivity.
Qed.

Lemma attachment_headers_invalid (filename : string) :
  all_chars valid_header_char filename = false ->
  exists e, attachment_headers filename = Throw e.
Proof.
  intros H. unfold attachment_headers.
  rewrite setHeader_valid by reflexivity. apply setHeader_invalid.
  rewrite !all_chars_app, H. apply andb_false_r.
Qed.

Lemma assets_name_valid (baseName : string) :
  all_chars valid_header_char (baseName +:+ "-assets.zip")
  = all_chars valid_header_char baseName.
Proof. rewrite all_chars_app. apply andb_true_r. Qed.

Lemma batch_headers : attachment_headers "webready-batch.zip" = Return tt.
Proof. reflexivity. Qed.

(** The answer of a request that gets through every stage. *)
Lemma process_success (sharp : Sharp) (file : File) (body : gmap string string)
    (meta : Metadata) (origW : Z) :
  let widths := resolve_widths body in
  let formats := resolve_formats body in
  let baseName := baseName_single body file in
  let sizesIn := sizesIn_single body widths in
  let finalWidths := feasible origW widths in
  let ps := pairs formats finalWidths in
  let outs := omap (pair_output sharp file (qWebp body) (qAvif body) baseName) ps in
  let srcsets := collect_srcsets outs in
  metadata sharp (buffer file) = Return meta ->
  meta_width meta = Some origW ->
  origW <> 0 ->
  finalWidths <> [] ->
  Forall (fun p => resolves (pair_result sharp file (qWebp body) (qAvif body) p)) ps ->
  all_chars valid_header_char baseName = true ->
  process sharp {| req_file := Some file; req_body := body |}
  = (Zip (baseName +:+ "-assets.zip")
       (archive_entries outs
        ++ [("snippet.html",
             Text (snippetDoc_single finalWidths formats sizesIn
                     (imgSnippet formats baseName finalWidths sizesIn srcsets)
                     (pictureSnippet formats baseName finalWidths sizesIn srcsets)))]),
     CallMetadata :: (pair_call (qWebp body) (qAvif body) <$> ps)).
Proof.
  intros widths formats baseName sizesIn finalWidths ps outs srcsets
    Hm Hw H0 Hne HF Hhdr.
  unfold process. cbn [req_file req_body]. rewrite Hm, Hw.
  destruct (Z.eqb_spec origW 0) as [|_]; [done|].
  fold widths formats baseName sizesIn finalWidths.
  rewrite (generate_success sharp file formats (qWebp body) (qAvif body)
             baseName finalWidths [CallMetadata] HF).
  rewrite attachment_headers_valid by (by rewrite assets_name_valid).
  cbn [outputs calls]. fold ps outs srcsets. by destruct finalWidths.
Qed.

(** The answer of a request that gets through the encoding under a base
    name the header cannot carry. *)
Lemma process_header_failure (sharp : Sharp) (file : File)
    (body : gmap string string) (meta : Metadata) (origW : Z) :
  let finalWidths := feasible origW (resolve_widths body) in
  let ps := pairs (resolve_formats body) finalWidths in
  metadata sharp (buffer file) = Return meta ->
  meta_width meta = Some origW ->
  origW <> 0 ->
  finalWidths <> [] ->
  Forall (fun p => resolves (pair_result sharp file (qWebp body) (qAvif body) p)) ps ->
  all_chars valid_header_char (baseName_single body file) = false ->
  exists e,
    process sharp {| req_file := Some file; req_body := body |}
    = (UnexpectedError e,
       CallMetadata :: (pair_call (qWebp body) (qAvif body) <$> ps)).
Proof.
  intros finalWidths ps Hm Hw H0 Hne HF Hhdr.
  destruct (attachment_headers_invalid (baseName_single body file +:+ "-assets.zip"))
    as [e He]; [by rewrite assets_name_valid|].
  exists e. unfold process. cbn [req_file req_body]. rewrite Hm, Hw.
  destruct (Z.eqb_spec origW 0) as [|_]; [done|].
  fold finalWidths.
  rewrite (generate_success sharp file (resolve_formats body) (qWebp body)
             (qAvif body) (baseName_single body file) finalWidths
             [CallMetadata] HF).
  rewrite He. cbn [outputs calls]. fold ps. by destruct finalWidths.
Qed.

Lemma process_zip_conditions (sharp : Sharp) (req : Request) :
  is_zip (process sharp req).1 = true ↔
  exists file meta origW,
    req_file req = Some file
    ∧ metadata sharp (buffer file) = Return meta
    ∧ meta_width meta = Some origW
    ∧ origW <> 0
    ∧ feasible origW (resolve_widths (req_body req)) <> []
    ∧ (forall w f,
         w ∈ feasible origW (resolve_widths (req_body req)) ->
         f ∈ resolve_formats (req_body req) ->
         resolves (toBuffer sharp (buffer file) w f
                     (quality_of (qWebp (req_body req)) (qAvif (req_body req)) f)))
    ∧ all_chars valid_header_char (baseName_single (req_body req) file) = true.
Proof.
  destruct req as [[file|] body]; cbn [req_file req_body]; split.
  - unfold process. cbn [req_file req_body].
    destruct (metadata sharp (buffer file)) as [meta|] eqn:Hm; [|done].
    destruct (meta_width meta) as [origW|] eqn:Hw; [|done].
    destruct (Z.eqb_spec origW 0) as [|H0]; [done|].
    destruct (feasible origW (resolve_widths body)) as [|w0 ws] eqn:Hf; [done|].
    destruct (generate _ _ _ _ _ _ _ _) as [[u|e] h] eqn:G; [|done].
    destruct (all_chars valid_header_char (baseName_single body file)) eqn:Hhdr.
    + intros _. exists file, meta, origW. rewrite Hf.
      repeat (split; [done|]). split; [|done].
      apply generate_return in G as (HF & _). by apply Forall_pairs_resolve.
    + destruct (attachment_headers_invalid
                  (baseName_single body file +:+ "-assets.zip")) as [e He];
        [by rewrite assets_name_valid|].
      by rewrite He.
  - intros (file' & meta & origW & [= <-] & Hm & Hw & H0 & Hne & Hall & Hhdr).
    rewrite (process_success sharp file body meta origW); try done.
    by apply Forall_pairs_resolve.
  - done.
  - by intros (? & ? & ? & ? & _).
Qed.

(** X8. A single-image request is answered with an attachment exactly
    when a file was uploaded, every field the handler reads converts to a
    text (none of them is an object, nor an array holding one), the
    metadata of the file can be read and report a width other than zero,
    some resolved width is feasible, the codec resolves on every feasible
    width in every requested format, and the base name holds only
    characters that the [Content-Disposition] header accepts. *)
Theorem process_succeeds_iff (sharp : Sharp) (req : RawRequest) :
  is_zip (handle_process sharp req).1 = true ↔
  exists file body meta origW,
    raw_file req = Some file
    ∧ (forall k v, k ∈ single_fields -> raw_body req !! k = Some v ->
         printable v = true)
    ∧ read_fields single_fields (raw_body req) = Return body
    ∧ metadata sharp (buffer file) = Return meta
    ∧ meta_width meta = Some origW
    ∧ origW <> 0
    ∧ feasible origW (resolve_widths body) <> []
    ∧ (forall w f,
         w ∈ feasible origW (resolve_widths body) ->
         f ∈ resolve_formats body ->
         resolves (toBuffer sharp (buffer file) w f
                     (quality_of (qWebp body) (qAvif body) f)))
    ∧ all_chars valid_header_char (baseName_single body file) = true.
Proof.
  destruct req as [[file|] raw]; unfold handle_process;
    cbn [raw_file raw_body]; split.
  - destruct (read_fields single_fields raw) as [body|e] eqn:Hr; [|done].
    intros (file' & meta & origW & [= <-] & H)%process_zip_conditions.
    exists file, body, meta, origW. split; [done|]. split; [|done].
    apply read_fields_return. eauto.
  - intros (file' & body & meta & origW & [= <-] & _ & -> & H).
    apply process_zip_conditions. by exists file, meta, origW.
  - done.
  - by intros (? & ? & ? & ? & ? & _).
Qed.

(** A base name that the header cannot carry costs the request its
    answer, after every encoding was made: with a line feed in the
    [basename] field the image is encoded and the request is then
    answered with status 500. *)
Example unprintable_base_name_fails :
  process (sample_sharp 1600 [])
    {| req_file := Some photo;
       req_body := {[ "widths" := "480"; "basename" := "a" +:+ nl +:+ "b" ]} |}
  = (UnexpectedError
       ("TypeError [ERR_INVALID_CHAR]: Invalid character in header content ["
        +:+ dq +:+ "Content-Disposition" +:+ dq +:+ "]"),
     [CallMetadata; CallToBuffer 480 webp (JS.Fin 82)]).
Proof. by vm_compute. Qed.

Lemma length_pairs (formats : list Format) (ws : list Z) :
  length (pairs formats ws) = (length ws * length (encoded_formats formats))%nat.
Proof.
  unfold pairs. induction ws as [|w ws IH]; [done|].
  rewrite bind_cons, length_app, length_fmap, IH. simpl. lia.
Qed.

Lemma some_format (formats : list Format) :
  formats <> [] -> webp ∈ formats ∨ avif ∈ formats.
Proof. destruct formats as [|[] fs]; [done|left|right]; left. Qed.

Lemma encoded_formats_length (formats : list Format) :
  formats <> [] -> (1 <= length (encoded_formats formats) <= 2)%nat.
Proof.
  intros [H|H]%some_format; unfold encoded_formats, includes;
    rewrite (bool_decide_eq_true_2 _ H);
    destruct (bool_decide _); simpl; lia.
Qed.

(** X9. When a single-image request is answered with an attachment, the
    handler hands the archiver, in ascending order of width and with
    webp before avif, one image per feasible width and requested format
    under the name [<base>-<width>.<format>], and then [snippet.html];
    these are the names it asks for, which the archiver normalises
    before it stores them. The attachment is announced under the base
    name, and the codec was called once per image, in that order, with
    the resolved quality of the format. *)
Theorem process_archive (sharp : Sharp) (file : File) (body : gmap string string)
    (meta : Metadata) (origW : Z) :
  let formats := resolve_formats body in
  let baseName := baseName_single body file in
  let finalWidths := feasible origW (resolve_widths body) in
  let ps := pairs formats finalWidths in
  let r := process sharp {| req_file := Some file; req_body := body |} in
  metadata sharp (buffer file) = Return meta ->
  meta_width meta = Some origW ->
  is_zip r.1 = true ->
  (exists entries, r.1 = Zip (baseName +:+ "-assets.zip") entries)
  ∧ archive_names r.1
    = ((fun p => fileName baseName p.1 p.2) <$> ps) ++ ["snippet.html"]
  ∧ r.2 = CallMetadata :: (pair_call (qWebp body) (qAvif body) <$> ps)
  ∧ length ps = (length finalWidths * length (encoded_formats formats))%nat
  ∧ (1 <= length finalWidths)%nat
  ∧ (1 <= length (encoded_formats formats) <= 2)%nat.
Proof.
  intros formats baseName finalWidths ps r Hm Hw Hzip.
  apply process_zip_conditions in Hzip
    as (file' & meta' & origW' & [= <-] & Hm' & Hw' & H0 & Hne & Hall & Hhdr).
  cbn [req_body] in *. rewrite Hm in Hm'. injection Hm' as <-.
  rewrite Hw in Hw'. injection Hw' as <-.
  apply Forall_pairs_resolve in Hall.
  unfold r. rewrite (process_success sharp file body meta origW) by done.
  cbn [fst snd archive_names]. split; [eauto|]. split; [|split; [done|]].
  - rewrite fmap_app. f_equal. unfold archive_entries.
    rewrite <- list_fmap_compose.
    change (fst ∘ (fun out => (name out, Binary (buf out)))) with name.
    by apply outputs_names.
  - split; [apply length_pairs|]. split.
    + fold finalWidths in Hne. destruct finalWidths; [done|simpl; lia].
    + apply encoded_formats_length, resolve_formats_nonempty.
Qed.

Lemma process_archive_witness :
  let body : gmap string string := {[ "formats" := "avif,webp"; "widths" := "900,300,600" ]} in
  let r := process (sample_sharp 700 []) {| req_file := Some photo; req_body := body |} in
  archive_names r.1
  = ((fun p => fileName (baseName_single body photo) p.1 p.2)
       <$> pairs (resolve_formats body) (feasible 700 (resolve_widths body)))
    ++ ["snippet.html"]
  ∧ archive_names r.1
    = ["photo-300.webp"; "photo-300.avif"; "photo-600.webp"; "photo-600.avif";
       "snippet.html"].
Proof.
  intros body r. split; [|by vm_compute].
  destruct (process_archive (sample_sharp 700 []) photo body
              {| meta_width := Some 700 |} 700) as (_ & H & _).
  - reflexivity.
  - reflexivity.
  - by vm_compute.
  - exact H.
Defined.

(** X10. The encoding stops at the first pair the codec rejects. The
    request is answered with the encoding failure carrying the message
    of that rejection, the codec having been called for the pairs before
    it and for it, and for none after it; in a batch the image is skipped
    after the same calls. *)
Theorem encoding_stops_at_first_rejection (sharp : Sharp) (file : File)
    (body : gmap string string) (meta : Metadata) (origW : Z)
    (pre post : list (Z * Format)) (p : Z * Format) (e : string) :
  let widths := resolve_widths body in
  let formats := resolve_formats body in
  metadata sharp (buffer file) = Return meta ->
  meta_width meta = Some origW ->
  origW <> 0 ->
  pairs formats (feasible origW widths) = pre ++ p :: post ->
  Forall (fun q => resolves (pair_result sharp file (qWebp body) (qAvif body) q)) pre ->
  pair_result sharp file (qWebp body) (qAvif body) p = Throw e ->
  process sharp {| req_file := Some file; req_body := body |}
  = (EncodingFailure e,
     CallMetadata :: (pair_call (qWebp body) (qAvif body) <$> pre ++ [p]))
  ∧ batch_iteration sharp widths formats (qWebp body) (qAvif body) file
    = (None, CallMetadata :: (pair_call (qWebp body) (qAvif body) <$> pre ++ [p])).
Proof.
  intros widths formats Hm Hw H0 Hps HF Hp.
  assert (Hne : feasible origW widths <> []).
  { intros E. rewrite E in Hps. by destruct pre. }
  split.
  - unfold process. cbn [req_file req_body]. rewrite Hm, Hw.
    destruct (Z.eqb_spec origW 0) as [|_]; [done|].
    fold widths formats.
    rewrite (generate_stops sharp file formats (qWebp body) (qAvif body)
               (baseName_single body file) _ [CallMetadata] pre p post e Hps HF Hp).
    by destruct (feasible origW widths).
  - unfold batch_iteration. rewrite Hm, Hw.
    destruct (Z.eqb_spec origW 0) as [|_]; [done|].
    rewrite (generate_stops sharp file formats (qWebp body) (qAvif body)
               (baseName_batch file) _ [CallMetadata] pre p post e Hps HF Hp).
    by destruct (feasible origW widths).
Qed.

Lemma encoding_stops_at_first_rejection_witness :
  process (sample_sharp 1600 [(768, webp)])
    {| req_file := Some photo; req_body := ∅ |}
  = (EncodingFailure "Error: encoder failed",
     [CallMetadata; CallToBuffer 480 webp (JS.Fin 82);
      CallToBuffer 768 webp (JS.Fin 82)]).
Proof.
  destruct (encoding_stops_at_first_rejection (sample_sharp 1600 [(768, webp)])
              photo ∅ {| meta_width := Some 1600 |} 1600
              [(480, webp)] [(1200, webp)] (768, webp) "Error: encoder failed")
    as [H _].
  - reflexivity.
  - reflexivity.
  - discriminate.
  - by vm_compute.
  - repeat constructor.
  - reflexivity.
  - exact H.
Defined.

(** ** What the codec is asked for *)

Lemma iteration_calls (sharp : Sharp) (widths : list Z) (formats : list Format)
    (qW qA : JS.number) (file : File) (c : Call) :
  c ∈ (batch_iteration sharp widths formats qW qA file).2 ->
  c = CallMetadata
  ∨ exists meta origW w f,
      metadata sharp (buffer file) = Return meta
      ∧ meta_width meta = Some origW
      ∧ c = CallToBuffer w f (quality_of qW qA f)
      ∧ w ∈ widths ∧ w <= origW ∧ f ∈ formats.
Proof.
  unfold batch_iteration.
  destruct (metadata sharp (buffer file)) as [meta|] eqn:Hm;
    [|intros ->%list_elem_of_singleton; by left].
  destruct (meta_width meta) as [origW|] eqn:Hw;
    [|intros ->%list_elem_of_singleton; by left].
  destruct (origW =? 0); [intros ->%list_elem_of_singleton; by left|].
  destruct (feasible origW widths) as [|w0 ws] eqn:Hf;
    [intros ->%list_elem_of_singleton; by left|].
  destruct (generate _ _ _ _ _ _ _ _) as [r h] eqn:G.
  intros Hc.
  assert (Hc' : c ∈ calls h) by (by destruct r).
  destruct (generate_calls _ _ _ _ _ _ _ _ _ _ G c Hc')
    as [->%list_elem_of_singleton|(w & f & -> & Hin & Hfm)]; [by left|].
  right. rewrite <- Hf in Hin. apply feasible_spec in Hin as [? ?].
  exists meta, origW, w, f. by repeat split.
Qed.

(** X11. [POST /process] never asks the codec to enlarge the image. Every
    encoding it requests, whether the request succeeds or fails, is for
    a resolved width that does not exceed the width the metadata report,
    in a requested format, at the resolved quality of that format. *)
Theorem process_never_upscales (sharp : Sharp) (req : Request) (c : Call) :
  let body := req_body req in
  c ∈ (process sharp req).2 ->
  c = CallMetadata
  ∨ exists file meta origW w f,
      req_file req = Some file
      ∧ metadata sharp (buffer file) = Return meta
      ∧ meta_width meta = Some origW
      ∧ c = CallToBuffer w f (quality_of (qWebp body) (qAvif body) f)
      ∧ w ∈ resolve_widths body ∧ 0 < w <= origW ∧ f ∈ resolve_formats body.
Proof.
  intros body. unfold process. fold body.
  destruct (req_file req) as [file|]; [|by intros ?%elem_of_nil].
  destruct (metadata sharp (buffer file)) as [meta|] eqn:Hm;
    [|intros ->%list_elem_of_singleton; by left].
  destruct (meta_width meta) as [origW|] eqn:Hw;
    [|intros ->%list_elem_of_singleton; by left].
  destruct (origW =? 0); [intros ->%list_elem_of_singleton; by left|].
  destruct (feasible origW (resolve_widths body)) as [|w0 ws] eqn:Hf;
    [intros ->%list_elem_of_singleton; by left|].
  destruct (generate _ _ _ _ _ _ _ _) as [r h] eqn:G.
  intros Hc.
  assert (Hc' : c ∈ calls h)
    by (by destruct r; [destruct (attachment_headers _)|]).
  destruct (generate_calls _ _ _ _ _ _ _ _ _ _ G c Hc')
    as [->%list_elem_of_singleton|(w & f & -> & Hin & Hfm)]; [by left|].
  right. rewrite <- Hf in Hin. apply feasible_spec in Hin as [Hin ?].
  pose proof (resolve_widths_positive _ _ Hin).
  exists file, meta, origW, w, f. repeat split; (done || lia).
Qed.

Lemma process_never_upscales_witness :
  CallToBuffer 480 webp (JS.Fin 82)
  ∈ (process (sample_sharp 500 []) {| req_file := Some photo; req_body := ∅ |}).2
  ∧ exists file meta origW w f,
      Some photo = Some file
      ∧ metadata (sample_sharp 500 []) (buffer file) = Return meta
      ∧ meta_width meta = Some origW
      ∧ CallToBuffer 480 webp (JS.Fin 82)
        = CallToBuffer w f (quality_of (qWebp ∅) (qAvif ∅) f)
      ∧ w ∈ resolve_widths ∅ ∧ 0 < w <= origW ∧ f ∈ resolve_formats ∅.
Proof.
  assert (Hin : CallToBuffer 480 webp (JS.Fin 82)
                ∈ (process (sample_sharp 500 [])
                     {| req_file := Some photo; req_body := ∅ |}).2).
  { vm_compute. right. left. }
  split; [exact Hin|].
  destruct (process_never_upscales _ _ _ Hin) as [Heq|H]; [discriminate Heq|].
  exact H.
Defined.

(** X12. Neither does [POST /process-batch]. The calls it makes on the
    codec are those of the turns of its loop, one turn per uploaded
    file, in the order of the upload; and every call of the turn of a
    file is the reading of its metadata or an encoding at a resolved
    width that does not exceed the width reported for that very file,
    in a requested format, at the resolved quality of the format. *)
Theorem process_batch_never_upscales (sharp : Sharp) (req : BatchRequest) :
  let body := batch_body req in
  let turn_calls file :=
    (batch_iteration sharp (resolve_widths body) (resolve_formats body)
       (qWebp body) (qAvif body) file).2 in
  (process_batch sharp req).2 = req_files req ≫= turn_calls
  ∧ forall file c,
      c ∈ turn_calls file ->
      c = CallMetadata
      ∨ exists meta origW w f,
          metadata sharp (buffer file) = Return meta
          ∧ meta_width meta = Some origW
          ∧ c = CallToBuffer w f (quality_of (qWebp body) (qAvif body) f)
          ∧ w ∈ resolve_widths body ∧ 0 < w <= origW ∧ f ∈ resolve_formats body.
Proof.
  intros body turn_calls. split.
  - unfold process_batch. fold body. rewrite batch_loop_spec.
    cbn [allOutputs batch_calls]. rewrite batch_headers.
    destruct (req_files req) as [|file files]; [done|].
    by destruct (_ ≫= _).
  - intros file c Hc. apply iteration_calls in Hc
      as [->|(meta & origW & w & f & Hm & Hw & -> & Hin & Hle & Hf)]; [by left|].
    right. pose proof (resolve_widths_positive _ _ Hin).
    exists meta, origW, w, f. repeat split; (done || lia).
Qed.

Lemma process_batch_never_upscales_witness :
  let sharp := sample_sharp 500 [] in
  (process_batch sharp {| req_files := [corrupt; photo]; batch_body := ∅ |}).2
  = [CallMetadata; CallMetadata; CallToBuffer 480 webp (JS.Fin 82)]
  ∧ exists meta origW w f,
      metadata sharp (buffer photo) = Return meta
      ∧ meta_width meta = Some origW
      ∧ CallToBuffer 480 webp (JS.Fin 82)
        = CallToBuffer w f (quality_of (qWebp ∅) (qAvif ∅) f)
      ∧ w ∈ resolve_widths ∅ ∧ 0 < w <= origW ∧ f ∈ resolve_formats ∅.
Proof.
  intros sharp.
  destruct (process_batch_never_upscales sharp
              {| req_files := [corrupt; photo]; batch_body := ∅ |})
    as [Hlog Hturn].
  split; [rewrite Hlog; by vm_compute|].
  destruct (Hturn photo (CallToBuffer 480 webp (JS.Fin 82)))
    as [Heq|H]; [vm_compute; right; left|discriminate Heq|exact H].
Defined.

(** ** The image snippet *)

Lemma img_format_requested (formats : list Format) :
  formats <> [] -> img_format formats ∈ formats.
Proof.
  intros Hne. unfold img_format, includes.
  destruct (bool_decide_reflect (webp ∈ formats)) as [H|H]; [done|].
  by destruct (some_format _ Hne).
Qed.

(** X13. Once the generation completes, the [<img>] snippet is written for
    webp when webp is requested and for avif otherwise: its [src] is the
    file of the smallest feasible width in that format, its [srcset]
    lists every feasible width in ascending order, and every file it
    names is among the outputs. *)
Theorem img_markup (sharp : Sharp) (file : File) (body : gmap string string)
    (baseName sizesIn : string) (origW : Z) (log : list Call) (u : unit)
    (h : Heap) (w0 : Z) :
  let formats := resolve_formats body in
  let finalWidths := feasible origW (resolve_widths body) in
  let f0 := img_format formats in
  generate sharp file formats (qWebp body) (qAvif body) baseName finalWidths log
  = (Return u, h) ->
  finalWidths !! 0%nat = Some w0 ->
  imgSnippet formats baseName finalWidths sizesIn (collect_srcsets (outputs h))
  = "<img" +:+ nl +:+
    "  src=" +:+ dq +:+ fileName baseName w0 f0 +:+ dq +:+ nl +:+
    "  srcset=" +:+ dq +:+ JS.join ", " (srcset_of baseName f0 finalWidths)
      +:+ dq +:+ nl +:+
    "  sizes=" +:+ dq +:+ sizesIn +:+ dq +:+ nl +:+
    "  alt=" +:+ dq +:+ dq +:+ nl +:+
    "  loading=" +:+ dq +:+ "lazy" +:+ dq +:+ nl +:+
    "  decoding=" +:+ dq +:+ "async" +:+ dq +:+ nl +:+
    "/>"
  ∧ f0 ∈ formats
  ∧ (forall w, w ∈ finalWidths -> w0 <= w)
  ∧ (forall w, w ∈ finalWidths -> fileName baseName w f0 ∈ name <$> outputs h).
Proof.
  intros formats finalWidths f0 Hgen Hw0.
  pose proof Hgen as (HF & Ho & _ & _)%generate_return.
  assert (Hf0 : f0 ∈ formats) by apply img_format_requested, resolve_formats_nonempty.
  split; [|split; [done|split]].
  - unfold imgSnippet, baseSrc. rewrite collect_srcsets_spec, Ho. simpl.
    rewrite !(srcset_of_outputs _ _ _ _ _ _ _ _ HF), Hw0.
    unfold f0, img_format in *.
    destruct (includes webp formats) eqn:Ew.
    + unfold fileName. simpl. rewrite !append_assoc. reflexivity.
    + assert (Ea : includes avif formats = true)
        by (by apply bool_decide_eq_true_2).
      rewrite Ea. unfold fileName. simpl. rewrite !append_assoc. reflexivity.
  - apply sorted_head_least; [|done].
    apply feasible_sorted, resolve_widths_sorted.
  - intros w Hw. rewrite Ho, outputs_names by done.
    apply list_elem_of_fmap. exists (w, f0). split; [done|].
    by apply elem_of_pairs.
Qed.

Lemma img_markup_witness :
  let body : gmap string string := {[ "formats" := "avif" ]} in
  let h := (generate (sample_sharp 800 []) photo (resolve_formats body)
              (qWebp body) (qAvif body) "photo"
              (feasible 800 (resolve_widths body)) [CallMetadata]).2 in
  img_format (resolve_formats body) = avif
  ∧ forall w, w ∈ feasible 800 (resolve_widths body) ->
      fileName "photo" w (img_format (resolve_formats body)) ∈ name <$> outputs h.
Proof.
  intros body h. split; [by vm_compute|].
  destruct (img_markup (sample_sharp 800 []) photo body "photo" "100vw" 800
              [CallMetadata] tt h 480) as (_ & _ & _ & H).
  - by vm_compute.
  - by vm_compute.
  - exact H.
Defined.

(** ** The fields a handler reads *)

(** What is not looked up is not read. *)
Lemma read_fields_insert (names : list string) (raw : gmap string Field)
    (k : string) (v : Field) :
  k ∉ names -> read_fields names (<[k := v]> raw) = read_fields names raw.
Proof.
  induction names as [|n names IH]; [done|].
  intros [Hn Hk]%not_elem_of_cons. cbn [read_fields].
  rewrite lookup_insert_ne by done. by rewrite IH.
Qed.

(** A body of texts converts to itself, cut down to the fields read. *)
Lemma read_fields_texts (names : list string) (body : gmap string string) :
  exists body',
    read_fields names (Str <$> body) = Return body'
    ∧ forall k, body' !! k = if decide (k ∈ names) then body !! k else None.
Proof.
  induction names as [|n names (body' & Hr & Hk)].
  - exists ∅. split; [done|]. intros k. rewrite lookup_empty.
    by destruct (decide (k ∈ [])) as [?%elem_of_nil|].
  - cbn [read_fields]. rewrite lookup_fmap, Hr.
    destruct (body !! n) as [s|] eqn:Hn; cbn [fmap option_fmap option_map].
    + exists (<[n := s]> body'). split; [done|]. intros k.
      destruct (decide (k = n)) as [->|Hne].
      * rewrite lookup_insert_eq.
        by destruct (decide (n ∈ n :: names)) as [|[]]; [|left].
      * rewrite lookup_insert_ne, Hk by done.
        destruct (decide (k ∈ names)), (decide (k ∈ n :: names)) as [Hin|Hout];
          try done.
        -- destruct Hout. by right.
        -- by apply elem_of_cons in Hin as [|].
    + exists body'. split; [done|]. intros k. rewrite Hk.
      destruct (decide (k = n)) as [->|Hne].
      * rewrite Hn. by destruct (decide _), (decide _).
      * destruct (decide (k ∈ names)), (decide (k ∈ n :: names)) as [Hin|Hout];
          try done.
        -- destruct Hout. by right.
        -- by apply elem_of_cons in Hin as [|].
Qed.

(** A field that is read and holds an object cannot be converted. *)
Lemma read_fields_object (names : list string) (raw : gmap string Field)
    (k : string) (m : list (string * Field)) :
  k ∈ names -> raw !! k = Some (Dict m) ->
  exists e, read_fields names raw = Throw e.
Proof.
  induction names as [|n names IH]; [by intros ?%elem_of_nil|].
  intros Hk Hd. cbn [read_fields].
  destruct (decide (k = n)) as [<-|Hne].
  - rewrite Hd. cbn [Field_toString]. eauto.
  - apply elem_of_cons in Hk as [|Hk]; [done|].
    destruct (IH Hk Hd) as [e ->].
    destruct (raw !! n) as [v|]; [|eauto].
    destruct (Field_toString v); eauto.
Qed.

(** The answer depends on the six fields only. *)
Lemma process_fields_only (sharp : Sharp) (file : option File)
    (body body' : gmap string string) :
  (forall k, k ∈ single_fields -> body' !! k = body !! k) ->
  process sharp {| req_file := file; req_body := body' |}
  = process sharp {| req_file := file; req_body := body |}.
Proof.
  intros H. unfold process, resolve_widths, resolve_formats, qWebp, qAvif,
    resolve_quality, baseName_single, sizesIn_single.
  cbn [req_file req_body].
  by rewrite !H by (unfold single_fields; rewrite !elem_of_cons; tauto).
Qed.

Lemma process_batch_fields_only (sharp : Sharp) (files : list File)
    (body body' : gmap string string) :
  (forall k, k ∈ batch_fields -> body' !! k = body !! k) ->
  process_batch sharp {| req_files := files; batch_body := body' |}
  = process_batch sharp {| req_files := files; batch_body := body |}.
Proof.
  intros H. unfold process_batch, resolve_widths, resolve_formats, qWebp, qAvif,
    resolve_quality.
  cbn [req_files batch_body].
  by rewrite !H by (unfold batch_fields; rewrite !elem_of_cons; tauto).
Qed.

(** On a body whose fields are all texts, which is what a form without
    bracketed or repeated field names gives, the handlers answer as
    [process] and [process_batch] do on these texts. *)
Lemma handle_process_texts (sharp : Sharp) (file : option File)
    (body : gmap string string) :
  handle_process sharp {| raw_file := file; raw_body := Str <$> body |}
  = process sharp {| req_file := file; req_body := body |}.
Proof.
  unfold handle_process. cbn [raw_file raw_body].
  destruct file as [file|]; [|done].
  destruct (read_fields_texts single_fields body) as (body' & -> & Hk).
  apply process_fields_only. intros k Hin. rewrite Hk.
  by destruct (decide (k ∈ single_fields)).
Qed.

Lemma handle_process_batch_texts (sharp : Sharp) (files : list File)
    (body : gmap string string) :
  handle_process_batch sharp
    {| raw_files := files; raw_batch_body := Str <$> body |}
  = process_batch sharp {| req_files := files; batch_body := body |}.
Proof.
  unfold handle_process_batch. cbn [raw_files raw_batch_body].
  destruct files as [|file files]; [done|].
  destruct (read_fields_texts batch_fields body) as (body' & -> & Hk).
  apply process_batch_fields_only. intros k Hin. rewrite Hk.
  by destruct (decide (k ∈ batch_fields)).
Qed.

(** A field that is read and holds an object, as the field name
    [widths[max]] makes of [widths], ends the request in the outer
    [catch], before the codec is asked anything. *)
Lemma object_field_fails (sharp : Sharp) (file : File)
    (raw : gmap string Field) (k : string) (m : list (string * Field)) :
  k ∈ single_fields -> raw !! k = Some (Dict m) ->
  exists e,
    handle_process sharp {| raw_file := Some file; raw_body := raw |}
    = (UnexpectedError e, []).
Proof.
  intros Hk Hd. destruct (read_fields_object _ _ _ _ Hk Hd) as [e He].
  exists e. unfold handle_process. cbn [raw_file raw_body]. by rewrite He.
Qed.

Example object_widths_fail :
  handle_process (sample_sharp 1600 [])
    {| raw_file := Some photo;
       raw_body := {[ "widths" := Dict [("max", Str "480")] ]} |}
  = (UnexpectedError "TypeError: Cannot convert object to primitive value", []).
Proof. by vm_compute. Qed.

(** A field name repeated, which multer collects in an array, reads as
    the values joined by commas. *)
Example repeated_widths_are_joined :
  read_fields single_fields
    {[ "widths" := Items [Some (Str "480"); Some (Str "768")] ]}
  = Return {[ "widths" := "480,768" ]}.
Proof. by vm_compute. Qed.

(** X14. [POST /process] reads six keys of [req.body] and no other: a
    key of any other name, whatever multer stored under it (a text, an
    array or an object), changes nothing of the answer nor of the calls
    made on the codec. *)
Theorem process_reads_six_fields (sharp : Sharp) (file : option File)
    (raw : gmap string Field) (k : string) (v : Field) :
  k ∉ single_fields ->
  handle_process sharp {| raw_file := file; raw_body := <[k := v]> raw |}
  = handle_process sharp {| raw_file := file; raw_body := raw |}.
Proof.
  intros Hk. unfold handle_process. cbn [raw_file raw_body].
  by rewrite read_fields_insert.
Qed.

Lemma process_reads_six_fields_witness :
  handle_process (sample_sharp 1600 [])
    {| raw_file := Some photo;
       raw_body := <["crop" := Dict [("top", Str "10")]]> ∅ |}
  = handle_process (sample_sharp 1600 [])
      {| raw_file := Some photo; raw_body := ∅ |}.
Proof.
  apply process_reads_six_fields. unfold single_fields.
  rewrite !not_elem_of_cons. repeat split; try discriminate.
  apply not_elem_of_nil.
Defined.

(** X15. [POST /process-batch] reads four keys of [req.body] and no
    other; [sizes] and [basename], which the single-image handler
    honours, change nothing of a batch, whatever multer stored under
    them. *)
Theorem process_batch_reads_four_fields (sharp : Sharp) (files : list File)
    (raw : gmap string Field) (k : string) (v : Field) :
  k ∉ batch_fields ->
  handle_process_batch sharp
    {| raw_files := files; raw_batch_body := <[k := v]> raw |}
  = handle_process_batch sharp {| raw_files := files; raw_batch_body := raw |}.
Proof.
  intros Hk. unfold handle_process_batch. cbn [raw_files raw_batch_body].
  by rewrite read_fields_insert.
Qed.

Lemma process_batch_reads_four_fields_witness :
  handle_process_batch (sample_sharp 1600 [])
    {| raw_files := [photo];
       raw_batch_body := <["sizes" := Items [Some (Str "100vw"); None]]> ∅ |}
  = handle_process_batch (sample_sharp 1600 [])
      {| raw_files := [photo]; raw_batch_body := ∅ |}.
Proof.
  apply process_batch_reads_four_fields. unfold batch_fields.
  rewrite !not_elem_of_cons. repeat split; try discriminate.
  apply not_elem_of_nil.
Defined.

(** ** Outcomes of [POST /process-batch] *)

(** The turn of a file that gets through every stage. *)
Lemma iteration_success (sharp : Sharp) (file : File) (body : gmap string string)
    (meta : Metadata) (origW : Z) :
  let widths := resolve_widths body in
  let formats := resolve_formats body in
  let baseName := baseName_batch file in
  let finalWidths := feasible origW widths in
  let ps := pairs formats finalWidths in
  let outs := omap (pair_output sharp file (qWebp body) (qAvif body) baseName) ps in
  metadata sharp (buffer file) = Return meta ->
  meta_width meta = Some origW ->
  origW <> 0 ->
  finalWidths <> [] ->
  Forall (fun p => resolves (pair_result sharp file (qWebp body) (qAvif body) p)) ps ->
  exists doc,
    batch_iteration sharp widths formats (qWebp body) (qAvif body) file
    = (Some (outs, doc),
       CallMetadata :: (pair_call (qWebp body) (qAvif body) <$> ps)).
Proof.
  intros widths formats baseName finalWidths ps outs Hm Hw H0 Hne HF.
  unfold batch_iteration. rewrite Hm, Hw.
  destruct (Z.eqb_spec origW 0) as [|_]; [done|].
  fold baseName finalWidths.
  rewrite (generate_success sharp file formats (qWebp body) (qAvif body)
             baseName finalWidths [CallMetadata] HF).
  cbn [outputs calls]. fold ps outs. destruct finalWidths; [done|]. eauto.
Qed.

Section BatchOutcomes.

Context (sharp : Sharp) (body : gmap string string).

Local Abbreviation widths := (resolve_widths body).
Local Abbreviation formats := (resolve_formats body).
Local Abbreviation iter :=
  (batch_iteration sharp (resolve_widths body) (resolve_formats body)
     (qWebp body) (qAvif body)).

(** What a turn that is not skipped went through. *)
Lemma iteration_Some_names file outs doc :
  (iter file).1 = Some (outs, doc) ->
  exists meta origW,
    metadata sharp (buffer file) = Return meta
    ∧ meta_width meta = Some origW
    ∧ feasible origW widths <> []
    ∧ name <$> outs
      = (fun p => fileName (baseName_batch file) p.1 p.2)
          <$> pairs formats (feasible origW widths).
Proof.
  unfold batch_iteration.
  destruct (metadata sharp (buffer file)) as [meta|] eqn:Hm; [|done].
  destruct (meta_width meta) as [origW|] eqn:Hw; [|done].
  destruct (origW =? 0); [done|].
  destruct (feasible origW widths) as [|w ws] eqn:E; [done|].
  destruct (generate _ _ _ _ _ _ _ _) as [[u|e] h] eqn:G; [|done].
  cbn [fst]. intros [= <- _]. exists meta, origW.
  apply generate_return in G as (HF & Ho & _ & _).
  rewrite E. do 3 (split; [done|]). rewrite Ho. by apply outputs_names.
Qed.

Lemma batch_zip_conditions files :
  is_zip (process_batch sharp {| req_files := files; batch_body := body |}).1 = true
  ↔ exists file, file ∈ files ∧ (iter file).1 <> None.
Proof.
  unfold process_batch. cbn [req_files batch_body]. rewrite batch_loop_spec.
  cbn [allOutputs allSnippets batch_calls].
  destruct files as [|f0 fs]; [split; [done|by intros (? & ?%elem_of_nil & _)]|].
  destruct ((f0 :: fs) ≫= _) as [|o os] eqn:E; cbn [fst is_zip]; split; try done.
  - intros (file & Hin & Hsome).
    destruct ((iter file).1) as [[outs doc]|] eqn:Hi; [|done].
    pose proof (iteration_Some_nonempty _ _ _ _ _ _ _ _
                  (resolve_formats_nonempty body) Hi) as Hne.
    destruct outs as [|o outs]; [done|].
    assert (Ho : o ∈ (f0 :: fs) ≫= fun file => contribution (iter file).1).
    { apply list_elem_of_bind. exists file. rewrite Hi. split; [left|done]. }
    rewrite E in Ho. by apply elem_of_nil in Ho.
  - intros _.
    assert (Ho : o ∈ (f0 :: fs) ≫= fun file => contribution (iter file).1)
      by (rewrite E; left).
    apply list_elem_of_bind in Ho as (file & Ho & Hin).
    exists file. split; [done|]. intros Hn. rewrite Hn in Ho.
    by apply elem_of_nil in Ho.
Qed.

Lemma process_batch_zip files :
  is_zip (process_batch sharp {| req_files := files; batch_body := body |}).1 = true ->
  process_batch sharp {| req_files := files; batch_body := body |}
  = (Zip "webready-batch.zip"
       (archive_entries (files ≫= fun file => contribution (iter file).1)
        ++ [("snippets.html",
             Text (combinedSnippets files widths formats
                     (omap (fun file => snd <$> (iter file).1) files)))]),
     files ≫= fun file => (iter file).2).
Proof.
  unfold process_batch. cbn [req_files batch_body]. rewrite batch_loop_spec.
  cbn [allOutputs allSnippets batch_calls].
  destruct files as [|f0 fs]; [done|].
  by destruct ((f0 :: fs) ≫= _).
Qed.

Lemma fmap_bind_list {A B C} (f : B -> C) (g : A -> list B) (l : list A) :
  f <$> (l ≫= g) = l ≫= fun x => f <$> g x.
Proof.
  induction l as [|x l IH]; [done|]. by rewrite !bind_cons, fmap_app, IH.
Qed.

Lemma bind_nil_list {A B} (g : A -> list B) : [] ≫= g = [].
Proof. reflexivity. Qed.

Lemma archive_entries_names outs : (archive_entries outs).*1 = name <$> outs.
Proof.
  unfold archive_entries. rewrite <- list_fmap_compose. reflexivity.
Qed.

End BatchOutcomes.

(** ** Skipped and processed images (C6) *)



(** No upload gets through: the batch is answered with the
    no-images-processable error. *)
Example batch_of_corrupt_images :
  process_batch (sample_sharp 1600 [])
    {| req_files := [corrupt; corrupt]; batch_body := ∅ |}
  = (NoImagesProcessable, [CallMetadata; CallMetadata]).
Proof. by vm_compute. Qed.

(** One image skipped, the others processed: of three uploads, the
    corrupt one adds nothing and the archive holds the outputs of the
    other two. *)
Example batch_with_one_corrupt_image :
  archive_names
    (process_batch (sample_sharp 500 [])
       {| req_files := [photo; corrupt; banner]; batch_body := ∅ |}).1
  = ["photo-480.webp"; "banner-480.webp"; "snippets.html"].
Proof. by vm_compute. Qed.

(** X16. A batch request is answered with an archive exactly when at least
    one uploaded file gets through its turn of the loop. *)
Theorem process_batch_succeeds_iff (sharp : Sharp) (req : BatchRequest) :
  let body := batch_body req in
  is_zip (process_batch sharp req).1 = true
  ↔ exists file,
      file ∈ req_files req
      ∧ (batch_iteration sharp (resolve_widths body) (resolve_formats body)
           (qWebp body) (qAvif body) file).1 <> None.
Proof. destruct req as [files body]. apply batch_zip_conditions. Qed.

(** X17. The attachment of a batch is announced as [webready-batch.zip],
    and the handler hands the archiver the outputs of the processed
    files in upload order, then [snippets.html]; the codec calls are
    those of the turns in upload order; and the names the handler asks
    for the outputs of a processed file are built on its own base name,
    one per feasible width of that file and requested format. These
    are the names handed to the archiver, which normalises a name before
    it stores it. *)
Theorem process_batch_archive (sharp : Sharp) (req : BatchRequest)
    (filename : string) (entries : list (string * Content)) (cs : list Call) :
  let body := batch_body req in
  let iter := batch_iteration sharp (resolve_widths body) (resolve_formats body)
                (qWebp body) (qAvif body) in
  process_batch sharp req = (Zip filename entries, cs) ->
  filename = "webready-batch.zip"
  ∧ entries.*1
    = (req_files req ≫= fun file => name <$> contribution (iter file).1)
      ++ ["snippets.html"]
  ∧ cs = (req_files req ≫= fun file => (iter file).2)
  ∧ forall file outs doc,
      (iter file).1 = Some (outs, doc) ->
      exists meta origW,
        metadata sharp (buffer file) = Return meta
        ∧ meta_width meta = Some origW
        ∧ name <$> outs
          = (fun p => fileName (baseName_batch file) p.1 p.2)
              <$> pairs (resolve_formats body) (feasible origW (resolve_widths body)).
Proof.
  destruct req as [files body]. cbn [batch_body req_files]. intros Heq.
  assert (Hzip : is_zip (process_batch sharp
                           {| req_files := files; batch_body := body |}).1 = true)
    by (by rewrite Heq).
  rewrite (process_batch_zip _ _ _ Hzip) in Heq. injection Heq as <- <- <-.
  split; [done|]. split; [|split; [done|]].
  - rewrite fmap_app, archive_entries_names. f_equal. apply fmap_bind_list.
  - intros file outs doc Hi.
    apply iteration_Some_names in Hi as (meta & origW & ? & ? & _ & ?). eauto.
Qed.

Lemma process_batch_archive_witness :
  let req := {| req_files := [photo; corrupt; banner]; batch_body := ∅ |} in
  let iter := batch_iteration (sample_sharp 500 []) (resolve_widths ∅)
                (resolve_formats ∅) (qWebp ∅) (qAvif ∅) in
  archive_names (process_batch (sample_sharp 500 []) req).1
  = (req_files req ≫= fun file => name <$> contribution (iter file).1)
    ++ ["snippets.html"].
Proof.
  intros req iter.
  destruct (process_batch_archive (sample_sharp 500 []) req "webready-batch.zip"
              (archive_of (process_batch (sample_sharp 500 []) req).1)
              (process_batch (sample_sharp 500 []) req).2) as (_ & H & _).
  - by vm_compute.
  - exact H.
Defined.

(** X18. Two uploads of a batch that share a base name, as [photo.jpg] and
    [photo.png] do, and are both processed put entries of the same name
    in the archive. *)
Theorem batch_same_base_name_collides (sharp : Sharp) (body : gmap string string)
    (f1 f2 : File) :
  let iter := batch_iteration sharp (resolve_widths body) (resolve_formats body)
                (qWebp body) (qAvif body) in
  baseName_batch f1 = baseName_batch f2 ->
  (iter f1).1 <> None -> (iter f2).1 <> None ->
  ¬ NoDup (archive_names
             (process_batch sharp {| req_files := [f1; f2]; batch_body := body |}).1).
Proof.
  intros iter Hbase H1 H2.
  destruct ((iter f1).1) as [[outs1 doc1]|] eqn:E1; [|done].
  destruct ((iter f2).1) as [[outs2 doc2]|] eqn:E2; [|done].
  assert (Hzip : is_zip (process_batch sharp
                           {| req_files := [f1; f2]; batch_body := body |}).1 = true).
  { apply batch_zip_conditions. exists f1. split; [left|]. fold iter. by rewrite E1. }
  rewrite (process_batch_zip _ _ _ Hzip). cbn [fst archive_names].
  rewrite fmap_app, archive_entries_names, !bind_cons, bind_nil_list. fold iter.
  rewrite E1, E2. cbn [contribution]. rewrite app_nil_r, fmap_app.
  pose proof (iteration_Some_names _ _ _ _ _ E1) as (m1 & o1 & _ & _ & Hne1 & Hn1).
  pose proof (iteration_Some_names _ _ _ _ _ E2) as (m2 & o2 & _ & _ & Hne2 & Hn2).
  (* the smallest resolved width is feasible for both images *)
  pose proof (resolve_widths_sorted body) as Hs.
  destruct (resolve_widths body) as [|w0 ws] eqn:Ew; [done|].
  assert (Hfeas : forall o, feasible o (w0 :: ws) <> [] -> w0 ∈ feasible o (w0 :: ws)).
  { intros o Hne. destruct (feasible o (w0 :: ws)) as [|x xs] eqn:Ef; [done|].
    assert (Hx : x ∈ feasible o (w0 :: ws)) by (rewrite Ef; left).
    apply feasible_spec in Hx as [Hx Hle]. rewrite <- Ef.
    apply feasible_spec. split; [left|].
    destruct (sorted_head_least (w0 :: ws) w0 Hs eq_refl) as [_ Hmin].
    specialize (Hmin x Hx). lia. }
  set (f0 := img_format (resolve_formats body)).
  assert (Hf0 : f0 ∈ resolve_formats body)
    by apply img_format_requested, resolve_formats_nonempty.
  set (n := fileName (baseName_batch f1) w0 f0).
  assert (Hin1 : n ∈ name <$> outs1).
  { rewrite Hn1. apply list_elem_of_fmap. exists (w0, f0). split; [done|].
    apply elem_of_pairs. auto. }
  assert (Hin2 : n ∈ name <$> outs2).
  { rewrite Hn2. unfold n. rewrite Hbase.
    apply list_elem_of_fmap. exists (w0, f0). split; [done|].
    apply elem_of_pairs. auto. }
  intros Hnd. apply NoDup_app in Hnd as (Hnd & _ & _).
  apply NoDup_app in Hnd as (_ & Hdisj & _). by apply (Hdisj n).
Qed.

Lemma batch_same_base_name_collides_witness :
  ¬ NoDup (archive_names
             (process_batch (sample_sharp 500 [])
                {| req_files := [photo;
                                 {| originalname := Some "photo.png";
                                    buffer := [Byte.x03] |}];
                   batch_body := ∅ |}).1).
Proof.
  apply batch_same_base_name_collides.
  - reflexivity.
  - by vm_compute.
  - by vm_compute.
Defined.

(** ** The middleware *)





(** X20. The error middleware answers 413 exactly for the three upload
    limits of multer, 400 for every other multer error, echoing its
    message, and 500 with a fixed body for anything else; it never sends
    an archive. *)
Theorem error_handler_status (err : ServerError) :
  let limits := ["LIMIT_FILE_SIZE"; "LIMIT_FILE_COUNT"; "LIMIT_FIELD_VALUE"] in
  (json_status (error_handler err) = Some 413
   ↔ exists code message, err = MulterError code message ∧ code ∈ limits)
  ∧ (forall code message,
       err = MulterError code message -> code ∉ limits ->
       error_handler err = Json 400 [("error", "Upload error: " +:+ message)])
  ∧ (err = OtherError ->
     error_handler err = Json 500 [("error", "Internal server error.")])
  ∧ (exists status, json_status (error_handler err) = Some status
                    ∧ (status = 400 ∨ status = 413 ∨ status = 500)).
Proof.
  intros limits. unfold limits. destruct err as [code message|]; cbn [error_handler].
  - destruct (String.eqb_spec code "LIMIT_FILE_SIZE") as [->|H1].
    { split; [split; [intros _; do 2 eexists; split; [done|left]|done]|].
      split; [intros c m [= <- <-] Hn; exfalso; apply Hn; left|].
      split; [done|]. eexists. split; [done|auto]. }
    destruct (String.eqb_spec code "LIMIT_FILE_COUNT") as [->|H2].
    { split; [split; [intros _; do 2 eexists; split; [done|right; left]|done]|].
      split; [intros c m [= <- <-] Hn; exfalso; apply Hn; right; left|].
      split; [done|]. eexists. split; [done|auto]. }
    destruct (String.eqb_spec code "LIMIT_FIELD_VALUE") as [->|H3].
    { split; [split; [intros _; do 2 eexists; split; [done|do 2 right; left]|done]|].
      split; [intros c m [= <- <-] Hn; exfalso; apply Hn; do 2 right; left|].
      split; [done|]. eexists. split; [done|auto]. }
    split; [|split; [by intros c m [= <- <-] _|split; [done|eexists; split; [done|auto]]]].
    split; [done|]. intros (c & m & [= <- <-] & Hin).
    rewrite !elem_of_cons, elem_of_nil in Hin. intuition congruence.
  - split; [split; [done|by intros (? & ? & ? & _)]|].
    split; [done|]. split; [done|]. eexists. split; [done|auto].
Qed.

Lemma error_handler_status_witness :
  error_handler (MulterError "LIMIT_UNEXPECTED_FILE" "Unexpected field")
  = Json 400 [("error", "Upload error: Unexpected field")].
Proof.
  destruct (error_handler_status
              (MulterError "LIMIT_UNEXPECTED_FILE" "Unexpected field"))
    as (_ & H & _).
  apply (H "LIMIT_UNEXPECTED_FILE" "Unexpected field"); [reflexivity|].
  rewrite !not_elem_of_cons. repeat split; try discriminate. apply not_elem_of_nil.
Defined.

(** ** One image, either way *)

(** X21. Without a [basename] field, uploading one image to
    [POST /process-batch] produces the same image files, under the same
    names and from the same codec calls, as uploading it to
    [POST /process]; the two archives differ in their name and in their
    markup document only. *)
Theorem single_and_batch_agree (sharp : Sharp) (file : File)
    (body : gmap string string) :
  body !! "basename" = None ->
  is_zip (process sharp {| req_file := Some file; req_body := body |}).1 = true ->
  exists images snippet snippets calls,
    process sharp {| req_file := Some file; req_body := body |}
    = (Zip (baseName_batch file +:+ "-assets.zip")
         (images ++ [("snippet.html", Text snippet)]), calls)
    ∧ process_batch sharp {| req_files := [file]; batch_body := body |}
      = (Zip "webready-batch.zip"
           (images ++ [("snippets.html", Text snippets)]), calls).
Proof.
  intros Hb Hzip.
  apply process_zip_conditions in Hzip
    as (file' & meta & origW & [= <-] & Hm & Hw & H0 & Hne & Hall & Hhdr).
  cbn [req_body] in *. apply Forall_pairs_resolve in Hall.
  assert (Hbase : baseName_single body file = baseName_batch file).
  { unfold baseName_single, baseName_batch. by rewrite Hb. }
  rewrite (process_success sharp file body meta origW) by done.
  destruct (iteration_success sharp file body meta origW Hm Hw H0 Hne Hall)
    as [doc Hiter].
  assert (Hz : is_zip (process_batch sharp
                         {| req_files := [file]; batch_body := body |}).1 = true).
  { apply batch_zip_conditions. exists file. split; [left|]. by rewrite Hiter. }
  rewrite (process_batch_zip _ _ _ Hz).
  rewrite !bind_cons, !bind_nil_list, Hiter. cbn [fst snd contribution]. rewrite !app_nil_r, Hbase.
  do 4 eexists. split; reflexivity.
Qed.

Lemma single_and_batch_agree_witness :
  exists images snippet snippets calls,
    process (sample_sharp 800 []) {| req_file := Some photo; req_body := ∅ |}
    = (Zip (baseName_batch photo +:+ "-assets.zip")
         (images ++ [("snippet.html", Text snippet)]), calls)
    ∧ process_batch (sample_sharp 800 []) {| req_files := [photo]; batch_body := ∅ |}
      = (Zip "webready-batch.zip"
           (images ++ [("snippets.html", Text snippets)]), calls).
Proof.
  apply single_and_batch_agree.
  - reflexivity.
  - by vm_compute.
Defined.
